(** * accessmodShiny version manager: a shallow embedding of
    [src/version_manager/manager.js] and the properties of its release
    workflow.

    JavaScript strings are sequences of UTF-16 code units; the calls the
    class makes to its collaborators (simple-git, inquirer, fs, console,
    process) are recorded as a trace of events and answered by an
    environment. *)

From Stdlib Require Import List ZArith NArith Bool Lia String Ascii.
Import ListNotations.
Local Open Scope Z_scope.

(** ** JavaScript strings *)

Module JsString.

(** A UTF-16 code unit. *)
Definition code_unit := N.

Definition jsstring := list code_unit.

(** An ASCII literal as a JavaScript string. *)
Definition js (s : string) : jsstring :=
  map N_of_ascii (list_ascii_of_string s).

Definition LF : code_unit := 10%N.

(** The en dash U+2013 of the release-note title. *)
Definition EN_DASH : code_unit := 8211%N.

Definition jsstring_eqb (a b : jsstring) : bool :=
  if list_eq_dec N.eq_dec a b then true else false.

(** [s.startsWith(pat)]. *)
Fixpoint startsWith (s pat : jsstring) : bool :=
  match pat, s with
  | [], _ => true
  | _ :: _, [] => false
  | p :: pat', c :: s' => N.eqb p c && startsWith s' pat'
  end.

(** [s.indexOf(pat)] scanned from position [i] of the whole string: the
    index of the first occurrence, [-1] when there is none. *)
Fixpoint indexOf_from (s pat : jsstring) (i : Z) : Z :=
  if startsWith s pat then i
  else match s with
       | [] => -1
       | _ :: s' => indexOf_from s' pat (i + 1)
       end.

Definition indexOf (s pat : jsstring) : Z := indexOf_from s pat 0.

(** The clamping of a relative index done by [slice]. *)
Definition clamp_index (len k : Z) : Z :=
  if k <? 0 then Z.max (len + k) 0 else Z.min k len.

(** [s.slice(start, end)]; [end_ = None] is the omitted argument. *)
Definition slice (s : jsstring) (start : Z) (end_ : option Z) : jsstring :=
  let len := Z.of_nat (List.length s) in
  let from := clamp_index len start in
  let to := match end_ with
            | None => len
            | Some e => clamp_index len e
            end in
  firstn (Z.to_nat (to - from)) (skipn (Z.to_nat from) s).

(** [s.substring(start, end)]: both indices clamped to the string, swapped
    when out of order. *)
Definition substring (s : jsstring) (start end_ : Z) : jsstring :=
  let len := Z.of_nat (List.length s) in
  let a := Z.min (Z.max start 0) len in
  let b := Z.min (Z.max end_ 0) len in
  let from := Z.min a b in
  let to := Z.max a b in
  firstn (Z.to_nat (to - from)) (skipn (Z.to_nat from) s).

(** [parts.join(sep)]. *)
Fixpoint join (sep : jsstring) (parts : list jsstring) : jsstring :=
  match parts with
  | [] => []
  | [p] => p
  | p :: rest => p ++ sep ++ join sep rest
  end.

(** White space and line terminators, the code units [trim] strips. *)
Definition isWhiteSpace (c : code_unit) : bool :=
  existsb (N.eqb c)
    [9; 10; 11; 12; 13; 32; 160; 5760; 8192; 8193; 8194; 8195; 8196; 8197;
     8198; 8199; 8200; 8201; 8202; 8232; 8233; 8239; 8287; 12288; 65279]%N.

Fixpoint trimStart (s : jsstring) : jsstring :=
  match s with
  | c :: s' => if isWhiteSpace c then trimStart s' else s
  | [] => []
  end.

Definition trim (s : jsstring) : jsstring :=
  rev (trimStart (rev (trimStart s))).

End JsString.
Export JsString.

(** ** The Semantic Version Incrementer *)

Module Semver.

Definition MAX_SAFE_INTEGER : N := 9007199254740991%N.
Definition MAX_LENGTH : Z := 256.

(** Modelled from the spec: the Semantic Version Incrementer is the
    [semver] package imported at manager.js:3, which is not under src/.
    A parsed version is the package's [SemVer] object: three numbers, the
    prerelease identifiers (a number when the identifier is numeric and
    below [MAX_SAFE_INTEGER], a string otherwise) and the build
    identifiers. *)
Inductive identifier :=
| IdNum (n : N)
| IdStr (s : jsstring).

(** Modelled from the spec: the fields of the package's [SemVer] object
    that [inc] and [compare] use. *)
Record SemVer := mkSemVer {
  major : N;
  minor : N;
  patch : N;
  prerelease : list identifier;
  build : list jsstring
}.

Definition isDigit (c : code_unit) : bool := (48 <=? c)%N && (c <=? 57)%N.

Definition isLetter (c : code_unit) : bool :=
  ((65 <=? c)%N && (c <=? 90)%N) || ((97 <=? c)%N && (c <=? 122)%N).

Definition HYPHEN : code_unit := 45%N.
Definition DOT : code_unit := 46%N.
Definition PLUS : code_unit := 43%N.

(** [[0-9A-Za-z-]] *)
Definition isIdentChar (c : code_unit) : bool :=
  isDigit c || isLetter c || N.eqb c HYPHEN.

(** [/^[0-9]+$/.test(s)] *)
Definition numeric (s : jsstring) : bool :=
  match s with
  | [] => false
  | _ => forallb isDigit s
  end.

(** The value of a string of decimal digits. *)
Definition decimal (s : jsstring) : N :=
  fold_left (fun acc c => (10 * acc + (c - 48))%N) s 0%N.

Definition digit_of (d : N) : code_unit := (48 + d)%N.

(** The decimal digits of [n], least significant first, with fuel. *)
Fixpoint digits_rev (fuel : nat) (n : N) : jsstring :=
  match fuel with
  | O => []
  | S fuel' =>
      if (n <? 10)%N then [digit_of n]
      else digit_of (n mod 10)%N :: digits_rev fuel' (n / 10)%N
  end.

(** [String(n)] for a non-negative integer below 10^21. *)
Definition N_toString (n : N) : jsstring :=
  rev (digits_rev (S (N.to_nat (N.log2 n))) n).

(** [s.split(sep)] for a one-unit separator. *)
Fixpoint split (sep : code_unit) (s : jsstring) : list jsstring :=
  match s with
  | [] => [[]]
  | c :: s' =>
      if N.eqb c sep then [] :: split sep s'
      else match split sep s' with
           | p :: ps => (c :: p) :: ps
           | [] => [[c]]
           end
  end.

(** The part before the first [sep] and, when [sep] occurs, the part
    after it. *)
Fixpoint cut (sep : code_unit) (s : jsstring) : jsstring * option jsstring :=
  match s with
  | [] => ([], None)
  | c :: s' =>
      if N.eqb c sep then ([], Some s')
      else let '(a, b) := cut sep s' in (c :: a, b)
  end.

(** NUMERICIDENTIFIER: [0|[1-9]\d*] *)
Definition isNumericIdentifier (s : jsstring) : bool :=
  match s with
  | [] => false
  | [c] => isDigit c
  | c :: _ => isDigit c && negb (N.eqb c 48) && forallb isDigit s
  end.

(** A prerelease identifier: NUMERICIDENTIFIER, or
    NONNUMERICIDENTIFIER [\d*[a-zA-Z-][a-zA-Z0-9-]*]. *)
Definition isPrereleaseIdentifier (s : jsstring) : bool :=
  if numeric s then isNumericIdentifier s
  else match s with
       | [] => false
       | _ => forallb isIdentChar s
       end.

(** BUILDIDENTIFIER: [[0-9A-Za-z-]+] *)
Definition isBuildIdentifier (s : jsstring) : bool :=
  match s with
  | [] => false
  | _ => forallb isIdentChar s
  end.

(** The constructor's "numberify any prerelease numeric ids". *)
Definition numberify (id : jsstring) : identifier :=
  if numeric id && (decimal id <? MAX_SAFE_INTEGER)%N
  then IdNum (decimal id) else IdStr id.

(** Modelled from the spec: the package's [new SemVer(version)] in strict
    mode; [None] is the TypeError it throws on a version that is not, after
    trimming and an optional leading v, three numeric identifiers joined by
    dots, then optionally a hyphen and dot-separated prerelease
    identifiers, then optionally a plus and dot-separated build
    identifiers, or whose numbers are out of range. *)
Definition parse (version : jsstring) : option SemVer :=
  if MAX_LENGTH <? Z.of_nat (List.length version) then None else
  let s := trim version in
  let s := match s with
           | 118%N :: s' => s'
           | _ => s
           end in
  let '(mainpre, b) := cut PLUS s in
  let '(main, p) := cut HYPHEN mainpre in
  let pre := match p with
             | None => Some []
             | Some p =>
                 let ids := split DOT p in
                 if forallb isPrereleaseIdentifier ids then Some ids else None
             end in
  let bld := match b with
             | None => Some []
             | Some b =>
                 let ids := split DOT b in
                 if forallb isBuildIdentifier ids then Some ids else None
             end in
  match split DOT main, pre, bld with
  | [ma; mi; pa], Some pre, Some bld =>
      if isNumericIdentifier ma && isNumericIdentifier mi
         && isNumericIdentifier pa
         && (decimal ma <=? MAX_SAFE_INTEGER)%N
         && (decimal mi <=? MAX_SAFE_INTEGER)%N
         && (decimal pa <=? MAX_SAFE_INTEGER)%N
      then Some {| major := decimal ma; minor := decimal mi;
                   patch := decimal pa;
                   prerelease := map numberify pre; build := bld |}
      else None
  | _, _, _ => None
  end.

Definition identifier_toString (i : identifier) : jsstring :=
  match i with
  | IdNum n => N_toString n
  | IdStr s => s
  end.

(** [format()]: the [version] property, without build identifiers. *)
Definition format (v : SemVer) : jsstring :=
  N_toString (major v) ++ [DOT] ++ N_toString (minor v) ++ [DOT]
  ++ N_toString (patch v)
  ++ match prerelease v with
     | [] => []
     | pre => HYPHEN :: join [DOT] (map identifier_toString pre)
     end.

(** The release types [proposeNextVersions] passes, and the inner [pre]
    step the package runs for [prerelease]. *)
Inductive release := Rprerelease | Rpatch | Rminor | Rmajor | Rpre.

(** Increment the first number of the list, if there is one. *)
Fixpoint bump_first (l : list identifier) : option (list identifier) :=
  match l with
  | [] => None
  | IdNum n :: r => Some (IdNum (n + 1) :: r)
  | x :: r => option_map (cons x) (bump_first r)
  end.

(** The [while (--i >= 0)] loop of [pre]: increment the rightmost number. *)
Definition bump_last (l : list identifier) : option (list identifier) :=
  option_map (@rev identifier) (bump_first (rev l)).

(** [+s] for a string of decimal digits: the nearest double, ties to
    even. *)
Definition toNumber (n : N) : N :=
  if (n <? 2 ^ 53)%N then n
  else
    let e := (N.log2 n - 52)%N in
    let q := (n / 2 ^ e)%N in
    let r := (n mod 2 ^ e)%N in
    let half := (2 ^ (e - 1))%N in
    let q' := if (half <? r)%N || ((r =? half)%N && N.odd q)
              then (q + 1)%N else q in
    (q' * 2 ^ e)%N.

Fixpoint jsstring_ltb (a b : jsstring) : bool :=
  match a, b with
  | _, [] => false
  | [], _ :: _ => true
  | x :: a', y :: b' => (x <? y)%N || ((x =? y)%N && jsstring_ltb a' b')
  end.

Definition identifier_numeric (i : identifier) : bool :=
  match i with
  | IdNum _ => true
  | IdStr s => numeric s
  end.

Definition identifier_value (i : identifier) : N :=
  match i with
  | IdNum n => n
  | IdStr s => toNumber (decimal s)
  end.

(** [a === b] on identifiers. *)
Definition identifier_eqb (a b : identifier) : bool :=
  match a, b with
  | IdNum x, IdNum y => N.eqb x y
  | IdStr x, IdStr y => jsstring_eqb x y
  | _, _ => false
  end.

(** Modelled from the spec: the package's [compareIdentifiers(a, b)],
    numbers before strings, numbers by value, strings by code units. *)
Definition compareIdentifiers (a b : identifier) : Z :=
  let anum := identifier_numeric a in
  let bnum := identifier_numeric b in
  if anum && bnum then
    let x := identifier_value a in
    let y := identifier_value b in
    if (x =? y)%N then 0 else if (x <? y)%N then -1 else 1
  else if identifier_eqb a b then 0
  else if anum && negb bnum then -1
  else if bnum && negb anum then 1
  else if jsstring_ltb (identifier_toString a) (identifier_toString b)
       then -1 else 1.

(** The strings over the identifier alphabet that [Number] reads as a
    number: decimal digits with an optional exponent, [Infinity], both
    with an optional leading hyphen, and the [0x], [0o] and [0b] forms. *)
Fixpoint isDecimalLiteral_from (s : jsstring) (seen : bool) : bool :=
  match s with
  | [] => seen
  | c :: s' =>
      if isDigit c then isDecimalLiteral_from s' true
      else if seen && ((c =? 101)%N || (c =? 69)%N) then
        match s' with
        | 45%N :: e => numeric e
        | e => numeric e
        end
      else false
  end.

Definition isDecimalLiteral (s : jsstring) : bool :=
  isDecimalLiteral_from s false.

Definition isRadixLiteral (s : jsstring) : bool :=
  match s with
  | 48%N :: p :: (_ :: _) as ds =>
      if (p =? 120)%N || (p =? 88)%N then
        forallb (fun c => isDigit c || ((65 <=? c)%N && (c <=? 70)%N)
                          || ((97 <=? c)%N && (c <=? 102)%N)) ds
      else if (p =? 111)%N || (p =? 79)%N then
        forallb (fun c => (48 <=? c)%N && (c <=? 55)%N) ds
      else if (p =? 98)%N || (p =? 66)%N then
        forallb (fun c => (48 <=? c)%N && (c <=? 49)%N) ds
      else false
  | _ => false
  end.

Definition isNumberLiteral (s : jsstring) : bool :=
  let unsigned := match s with
                  | 45%N :: s' => s'
                  | _ => s
                  end in
  isDecimalLiteral unsigned || jsstring_eqb unsigned (js "Infinity")
  || isRadixLiteral s.

(** [isNaN(this.prerelease[1])]; [None] is [undefined]. *)
Definition isNaN (x : option identifier) : bool :=
  match x with
  | None => true
  | Some (IdNum _) => false
  | Some (IdStr s) => negb (isNumberLiteral s)
  end.

(** Modelled from the spec: the [pre] case of the package's
    [SemVer.inc], with [identifierBase] undefined. *)
Definition inc_pre (pre : list identifier) (id : option jsstring)
  : list identifier :=
  let pre1 := match pre with
              | [] => [IdNum 0]
              | _ => match bump_last pre with
                     | Some p => p
                     | None => pre ++ [IdNum 0]
                     end
              end in
  match id with
  | Some ((_ :: _) as identifier) =>
      let fresh := [IdStr identifier; IdNum 0] in
      match pre1 with
      | first :: _ =>
          if compareIdentifiers first (IdStr identifier) =? 0 then
            if isNaN (nth_error pre1 1) then fresh else pre1
          else fresh
      | [] => fresh
      end
  | _ => pre1
  end.

(** Modelled from the spec: the package's
    [SemVer.inc(release, identifier)] for the release types above. *)
Definition SemVer_inc (v : SemVer) (r : release) (id : option jsstring)
  : SemVer :=
  let bare ma mi pa := {| major := ma; minor := mi; patch := pa;
                          prerelease := []; build := build v |} in
  let inc_patch v :=
    bare (major v) (minor v)
         (if Nat.eqb (List.length (prerelease v)) 0 then (patch v + 1)%N
          else patch v) in
  match r with
  | Rprerelease =>
      let v1 := if Nat.eqb (List.length (prerelease v)) 0
                then inc_patch v else v in
      {| major := major v1; minor := minor v1; patch := patch v1;
         prerelease := inc_pre (prerelease v1) id; build := build v1 |}
  | Rmajor =>
      bare (if negb (minor v =? 0)%N || negb (patch v =? 0)%N
               || Nat.eqb (List.length (prerelease v)) 0
            then (major v + 1)%N else major v) 0%N 0%N
  | Rminor =>
      bare (major v)
           (if negb (patch v =? 0)%N
               || Nat.eqb (List.length (prerelease v)) 0
            then (minor v + 1)%N else minor v) 0%N
  | Rpatch => inc_patch v
  | Rpre =>
      {| major := major v; minor := minor v; patch := patch v;
         prerelease := inc_pre (prerelease v) id; build := build v |}
  end.

(** Modelled from the spec: the package's
    [semver.inc(version, release, identifier)], which answers the
    incremented version string, or [null] when the version is not valid
    (it catches the error of the constructor). *)
Definition inc (version : jsstring) (r : release) (id : option jsstring)
  : option jsstring :=
  match parse version with
  | Some v => Some (format (SemVer_inc v r id))
  | None => None
  end.

(** [a || b] on comparison results. *)
Definition or_else (a b : Z) : Z := if a =? 0 then b else a.

Definition compareNumbers (a b : N) : Z :=
  if (a =? b)%N then 0 else if (a <? b)%N then -1 else 1.

Definition compareMain (a b : SemVer) : Z :=
  or_else (compareNumbers (major a) (major b))
    (or_else (compareNumbers (minor a) (minor b))
       (compareNumbers (patch a) (patch b))).

(** The [do ... while (++i)] loop of [comparePre]. *)
Fixpoint comparePre_loop (a b : list identifier) : Z :=
  match a, b with
  | [], [] => 0
  | _ :: _, [] => 1
  | [], _ :: _ => -1
  | x :: a', y :: b' =>
      if identifier_eqb x y then comparePre_loop a' b'
      else compareIdentifiers x y
  end.

Definition comparePre (a b : SemVer) : Z :=
  match prerelease a, prerelease b with
  | _ :: _, [] => -1
  | [], _ :: _ => 1
  | [], [] => 0
  | pa, pb => comparePre_loop pa pb
  end.

(** Modelled from the spec: the package's [a.compare(b)], the
    semantic-version precedence: 1, 0 or -1. *)
Definition compare (a b : SemVer) : Z :=
  or_else (compareMain a b) (comparePre a b).

(** [semver.gt(a, b)] on parsed versions. *)
Definition gt (a b : SemVer) : bool := compare a b =? 1.

End Semver.

(** ** Collaborators and their calls *)

(** A string or [null] / [undefined]. *)
Definition jsval := option jsstring.

(** [`${v}`] *)
Definition toStr (v : jsval) : jsstring :=
  match v with
  | Some s => s
  | None => js "null"
  end.

(** [if (v)] on a string or [null]. *)
Definition truthy (v : jsval) : bool :=
  match v with
  | Some (_ :: _) => true
  | _ => false
  end.

(** A thrown value: an [Error] with its message. *)
Inductive error := JsError (message : jsstring).

(** What an awaited call of a collaborator does: resolve or reject. *)
Inductive answer (A : Type) :=
| Resolved (a : A)
| Rejected (e : error).
Arguments Resolved {A} a.
Arguments Rejected {A} e.

Module Git.

(** [git.status()]: the changed files and the current branch. *)
Record StatusResult := { files : list jsstring; current : jsval }.

(** An entry of [git.log().all]. *)
Record commit := { message : jsstring; date : jsstring }.

(** An entry of [git.getRemotes(true)]. *)
Record remote := { name : jsstring }.

End Git.

(** The calls of manager.js to simple-git, fs, inquirer, console and
    process, in the order they are made. *)
Inductive event :=
| GitStatus
| GitTags
| GitLog (from : jsval)
| GitGetRemotes
| GitDiff
| GitAdd (files : jsstring)
| GitCommit (message : jsstring)
| GitTag (name : jsval)
| GitStash
| GitPush (remote : jsstring) (branch : jsval)
| FsReadFile (path : jsstring)
| FsWriteFile (path : jsstring) (data : jsval)
| PromptList (choices : list jsval)
| PromptEditor (default : jsstring)
| PromptCheckbox (choices : list jsstring)
| PromptConfirm
| ConsoleLog (text : jsstring)
| ConsoleError (text : jsstring) (err : option error)
| ProcessExit (code : Z).

(** The calls that change the working tree, the repository, a remote or a
    file. *)
Definition mutating (e : event) : bool :=
  match e with
  | GitAdd _ | GitCommit _ | GitTag _ | GitStash | GitPush _ _
  | FsWriteFile _ _ => true
  | _ => false
  end.

(** The answers of the collaborators during one run, and the built-in
    [Date] functions the release note uses. *)
Record env := mkEnv {
  status_precheck : answer Git.StatusResult;
  readFile : jsstring -> answer jsstring;
  prompt_newVersion : list jsval -> answer jsval;
  tags_latest : answer jsval;
  log_all : jsval -> answer (list Git.commit);
  Date_now : Z;
  Date_parse : jsstring -> option Z;
  toISOString : Z -> jsstring;
  prompt_messagesStringFinal : jsstring -> answer jsstring;
  writeFile : jsstring -> jsval -> answer unit;
  add : answer unit;
  commit : jsstring -> answer unit;
  tag : jsval -> answer unit;
  status_push : answer Git.StatusResult;
  getRemotes : answer (list Git.remote);
  prompt_remotesSelected : list jsstring -> answer (list jsstring);
  diff : answer jsstring;
  prompt_confirmPush : answer bool;
  push : jsstring -> jsval -> answer unit;
  stash : answer unit
}.

(** ** Asynchronous methods: a trace of calls and how the method ends *)

Inductive outcome (A : Type) :=
| Returned (a : A)
| Thrown (e : error)
| Exited (code : Z).
Arguments Returned {A} a.
Arguments Thrown {A} e.
Arguments Exited {A} code.

Definition M (A : Type) : Type := list event * outcome A.

Definition ret {A} (a : A) : M A := ([], Returned a).

(** [m] after the calls [t]. *)
Definition prepend {A} (t : list event) (m : M A) : M A :=
  (t ++ fst m, snd m).

(** [await m], then [f] on its value; a rejection or an exit of [m] ends
    the sequence. *)
Definition bind {A B} (m : M A) (f : A -> M B) : M B :=
  match m with
  | (t, Returned a) => prepend t (f a)
  | (t, Thrown e) => (t, Thrown e)
  | (t, Exited c) => (t, Exited c)
  end.

Notation "x <- m ;; k" := (bind m (fun x => k))
  (at level 61, m at next level, right associativity).
Notation "m ;;; k" := (bind m (fun _ => k))
  (at level 61, right associativity).

(** A call that cannot fail. *)
Definition emit (e : event) : M unit := ([e], Returned tt).

(** An awaited call of a collaborator. *)
Definition call {A} (e : event) (a : answer A) : M A :=
  ([e], match a with
        | Resolved x => Returned x
        | Rejected err => Thrown err
        end).

Definition throw {A} (e : error) : M A := ([], Thrown e).

(** [process.exit(code)]: the process ends there. *)
Definition exit {A} (code : Z) : M A := ([ProcessExit code], Exited code).

(** [try { m } catch (error) { h error }] *)
Definition try_catch {A} (m : M A) (h : error -> M A) : M A :=
  match m with
  | (t, Thrown e) => prepend t (h e)
  | _ => m
  end.

Definition trace {A} (m : M A) : list event := fst m.
Definition result {A} (m : M A) : outcome A := snd m.

(** ** The class [VersionManager] *)

Record options := {
  opt_file_version : option jsstring;
  opt_file_changelog : option jsstring;
  opt_dry_run : option bool
}.

Record VersionManager := {
  file_version : jsstring;
  file_changelog : jsstring;
  dry_run : bool
}.

Definition options_default : VersionManager :=
  {| file_version := js "version.txt";
     file_changelog := js "changes.md";
     dry_run := false |}.

(** [Object.assign({}, options_default, options)], then [!!dry_run];
    [None] is an option the caller left out. *)
Definition constructor (o : options) : VersionManager :=
  {| file_version :=
       match opt_file_version o with
       | Some f => f
       | None => file_version options_default
       end;
     file_changelog :=
       match opt_file_changelog o with
       | Some f => f
       | None => file_changelog options_default
       end;
     dry_run :=
       match opt_dry_run o with
       | Some b => b
       | None => dry_run options_default
       end |}.

(** The object [proposeNextVersions] returns. *)
Record NextVersions := {
  nextAlpha : jsval;
  nextBeta : jsval;
  nextPatch : jsval;
  nextFeature : jsval;
  nextMajor : jsval
}.

(** [Object.values] of it, in insertion order. *)
Definition Object_values (n : NextVersions) : list jsval :=
  [nextAlpha n; nextBeta n; nextPatch n; nextFeature n; nextMajor n].

Definition proposeNextVersions (currentVersion : jsstring) : NextVersions :=
  {| nextAlpha :=
       Semver.inc currentVersion Semver.Rprerelease (Some (js "alpha"));
     nextBeta :=
       Semver.inc currentVersion Semver.Rprerelease (Some (js "beta"));
     nextPatch := Semver.inc currentVersion Semver.Rpatch None;
     nextFeature := Semver.inc currentVersion Semver.Rminor None;
     nextMajor := Semver.inc currentVersion Semver.Rmajor None |}.

(** The pure part of [updateChangeLog]: [changelogNew]. *)
Definition changelogNew (changelogContent newVersionMessage : jsstring)
  : jsstring :=
  let endOfTitleBlock := indexOf changelogContent [LF; LF] + 2 in
  let head := slice changelogContent 0 (Some endOfTitleBlock) in
  let body := newVersionMessage in
  let logs := slice changelogContent endOfTitleBlock None in
  head ++ body ++ logs.

(** The [dates] object of [getFormattedVersionMessage]. *)
Record dates := { from : Z; to : Z }.

(** One step of the [commits.all.map] callback on [dates]; a date that
    does not parse is [NaN] and compares false both ways. *)
Definition visit (parse : jsstring -> option Z) (d : dates) (c : Git.commit)
  : dates :=
  match parse (Git.date c) with
  | Some dateObj =>
      let d1 := if dateObj <? from d
                then {| from := dateObj; to := to d |} else d in
      if to d1 <? dateObj then {| from := from d1; to := dateObj |} else d1
  | None => d
  end.

(** The pure part of [getFormattedVersionMessage], from the commits read
    and the clock. *)
Definition formatVersionMessage (parse : jsstring -> option Z)
    (iso : Z -> jsstring) (now : Z) (newVersion : jsval)
    (all : list Git.commit) : jsstring :=
  let dates := fold_left (visit parse) all {| from := now; to := 0 |} in
  let formattedMessages := map Git.message all in
  let dateFrom := substring (iso (from dates)) 0 10 in
  let dateTo := substring (iso (to dates)) 0 10 in
  let title := js "- " ++ toStr newVersion ++ js " [ " ++ dateFrom
               ++ [32%N; EN_DASH; 32%N] ++ dateTo ++ js " ]" in
  let body := join [LF] (map (fun m => js "    -" ++ m) formattedMessages) in
  title ++ [LF] ++ body.

Section Methods.

Variable this : VersionManager.
Variable E : env.

Definition getVersionFromFile (filePath : jsstring) : M jsstring :=
  data <- call (FsReadFile filePath) (readFile E filePath) ;;
  ret (trim data).

Definition saveVersionToFile (version : jsval) : M unit :=
  if dry_run this then
    emit (ConsoleLog (js "Dry run: Version would be saved as "
                      ++ toStr version ++ js " to " ++ file_version this))
  else
    call (FsWriteFile (file_version this) version)
         (writeFile E (file_version this) version).

Definition updateChangeLog (newVersionMessage : jsstring) : M unit :=
  changelogContent <- call (FsReadFile (file_changelog this))
                           (readFile E (file_changelog this)) ;;
  let changelogShort := slice changelogContent 0 (Some 1000) in
  if dry_run this then
    emit (ConsoleLog (js "Dry run: changelog preview: "
                      ++ file_changelog this ++ js ":" ++ [LF]
                      ++ changelogShort))
  else
    let new := changelogNew changelogContent newVersionMessage in
    call (FsWriteFile (file_changelog this) (Some new))
         (writeFile E (file_changelog this) (Some new)).

Definition getFormattedVersionMessage (newVersion : jsval) : M jsstring :=
  latest <- call GitTags (tags_latest E) ;;
  all <- (if truthy latest
          then call (GitLog latest) (log_all E latest)
          else call (GitLog None) (log_all E None)) ;;
  ret (formatVersionMessage (Date_parse E) (toISOString E) (Date_now E)
         newVersion all).

Definition promptNewVersion (currentVersion : jsstring) : M jsval :=
  let choices := Object_values (proposeNextVersions currentVersion) in
  call (PromptList choices) (prompt_newVersion E choices).

Definition promptEditMessages (messagesString : jsstring) : M jsstring :=
  call (PromptEditor messagesString)
       (prompt_messagesStringFinal E messagesString).

Definition commitAndTagVersion (version : jsval) : M unit :=
  if dry_run this then
    emit (ConsoleLog (js "Dry run: Git commit and tag for version "
                      ++ toStr version ++ js " would be created."))
  else
    call (GitAdd (js ".")) (add E) ;;;
    call (GitCommit (js "version " ++ toStr version))
         (commit E (js "version " ++ toStr version)) ;;;
    call (GitTag version) (tag E version).

(** The [for (const remote of remotesSelected)] loop of [pushToRemote]. *)
Fixpoint pushEach (remotesSelected : list jsstring) (branch : jsval)
  : M unit :=
  match remotesSelected with
  | [] => ret tt
  | remote :: rest =>
      (if dry_run this then
         emit (ConsoleLog (js "Dry run: Changes would be pushed to remote "
                           ++ remote ++ js " on branch " ++ toStr branch))
       else
         call (GitPush remote branch) (push E remote branch) ;;;
         emit (ConsoleLog (js "Pushed to remote " ++ remote
                           ++ js " on branch " ++ toStr branch
                           ++ js " successfully."))) ;;;
      pushEach rest branch
  end.

Definition pushToRemote : M unit :=
  status <- call GitStatus (status_push E) ;;
  let branch := Git.current status in
  remotes <- call GitGetRemotes (getRemotes E) ;;
  if Nat.eqb (List.length remotes) 0 then
    throw (JsError (js "No git remotes found."))
  else
    let choices := map Git.name remotes in
    remotesSelected <- call (PromptCheckbox choices)
                            (prompt_remotesSelected E choices) ;;
    d <- call GitDiff (diff E) ;;
    emit (ConsoleLog d) ;;;
    confirmPush <- call PromptConfirm (prompt_confirmPush E) ;;
    if (confirmPush : bool) then pushEach remotesSelected branch
    else throw (JsError (js "Cancel in push step")).

Definition checkForUncommittedChanges : M unit :=
  status <- call GitStatus (status_precheck E) ;;
  if negb (Nat.eqb (List.length (Git.files status)) 0) then
    if dry_run this then
      emit (ConsoleLog (js "Dry run: Would check for uncommitted changes."))
    else
      emit (ConsoleError (js "Error: There are uncommitted changes. Please commit or stash them before running this script.") None) ;;;
      exit 1
  else ret tt.

Definition autoStash : M unit :=
  if dry_run this then
    emit (ConsoleLog (js "Dry run: Uncommitted changes would be stashed."))
  else
    call GitStash (stash E) ;;;
    emit (ConsoleLog (js "Uncommitted changes have been stashed.")).

(** The [try] block of [create]. *)
Definition create_try : M unit :=
  checkForUncommittedChanges ;;;
  currentVersion <- getVersionFromFile (file_version this) ;;
  newVersion <- promptNewVersion currentVersion ;;
  messagesString <- getFormattedVersionMessage newVersion ;;
  messagesStringFinal <- promptEditMessages messagesString ;;
  updateChangeLog messagesStringFinal ;;;
  saveVersionToFile newVersion ;;;
  commitAndTagVersion newVersion ;;;
  pushToRemote ;;;
  emit (ConsoleLog (js "Done!")).

(** The [catch (error)] block of [create]. *)
Definition create_catch (error : error) : M unit :=
  autoStash ;;;
  emit (ConsoleError (js "Error:") (Some error)).

Definition create : M unit := try_catch create_try create_catch.

End Methods.

(** The entry script: [--dry-run] on the command line, the two files in
    the working directory, then [await version.create()]; what [create]
    throws is an unhandled rejection of the script. *)
Definition main (argv : list jsstring) (E : env) : M unit :=
  let dryRun := existsb (jsstring_eqb (js "--dry-run")) argv in
  create
    (constructor {| opt_file_version := Some (js "./version.txt");
                    opt_file_changelog := Some (js "./changes.md");
                    opt_dry_run := Some dryRun |})
    E.

(** ** Vocabulary of the properties *)

(** The errors of the workflow, as the code throws them. *)
Definition NoRemotesError : error := JsError (js "No git remotes found.").
Definition PushCancelledError : error := JsError (js "Cancel in push step").

(** [pat] occurs in [s] at position [i]. *)
Definition occurs_at (pat s : jsstring) (i : nat) : Prop :=
  exists rest, skipn i s = pat ++ rest.

(** [i] is the position of the first occurrence of [pat] in [s]. *)
Definition first_occurrence (pat s : jsstring) (i : nat) : Prop :=
  occurs_at pat s i /\ forall j, (j < i)%nat -> ~ occurs_at pat s j.

(** The blank-line separator. *)
Definition blank_line : jsstring := [LF; LF].

(** [t] is the title block of [doc]: everything up to and including the
    first blank-line separator. *)
Definition title_block (doc t : jsstring) : Prop :=
  exists i, first_occurrence blank_line doc i /\ t = firstn (i + 2) doc.

(** [r] is what follows the title block of [doc]. *)
Definition entries (doc r : jsstring) : Prop :=
  exists i, first_occurrence blank_line doc i /\ r = skipn (i + 2) doc.

(** The trace holds the report of the error [e] by the handler of
    [create]. *)
Definition reports (e : error) (t : list event) : Prop :=
  In (ConsoleError (js "Error:") (Some e)) t.

(** The instants of the commits whose date reads as a valid [Date]. *)
Definition commit_times (parse : jsstring -> option Z)
    (all : list Git.commit) : list Z :=
  flat_map (fun c => match parse (Git.date c) with
                     | Some t => [t]
                     | None => []
                     end) all.

(** No call of the trace is a mutating one. *)
Definition read_only (t : list event) : Prop :=
  Forall (fun e => mutating e = false) t.

(** The message of the precondition check. *)
Definition uncommitted_message : jsstring :=
  js "Error: There are uncommitted changes. Please commit or stash them before running this script.".

(** The calls of the push step that no earlier step makes. *)
Definition push_step (e : event) : bool :=
  match e with
  | GitGetRemotes | PromptConfirm => true
  | _ => false
  end.

Definition before_push (t : list event) : Prop :=
  Forall (fun e => push_step e = false) t.

(** What the steps before the push did when [dry_run] is off. *)
Definition prelude_live (this : VersionManager) (E : env)
    (pre : list event) : Prop :=
  exists content note v,
    filter mutating pre
    = [FsWriteFile (file_changelog this) (Some (changelogNew content note));
       FsWriteFile (file_version this) v;
       GitAdd (js ".");
       GitCommit (js "version " ++ toStr v);
       GitTag v]
    /\ add E = Resolved tt
    /\ commit E (js "version " ++ toStr v) = Resolved tt
    /\ tag E v = Resolved tt.

(** The five candidates when the incrementer answers [null] to each
    call. *)
Definition no_candidates : NextVersions :=
  {| nextAlpha := None; nextBeta := None; nextPatch := None;
     nextFeature := None; nextMajor := None |}.

(** The two prerelease tags [proposeNextVersions] asks for. *)
Definition alpha : jsstring := js "alpha".
Definition beta : jsstring := js "beta".

(** [l1] is an initial segment of [l2]. *)
Definition is_prefix {A : Type} (l1 l2 : list A) : Prop :=
  exists rest, l2 = l1 ++ rest.

(** Every code unit of [s] is white space. *)
Definition blank (s : jsstring) : bool := forallb isWhiteSpace s.

(** [s] neither starts nor ends with white space. *)
Definition trimmed (s : jsstring) : bool :=
  match s with
  | [] => true
  | c :: _ => negb (isWhiteSpace c) && negb (isWhiteSpace (last s c))
  end.

(** The method does not end the process. *)
Definition no_exit {A : Type} (m : M A) : Prop :=
  forall c, result m <> Exited c.

(** The mutating calls of the steps before the push, in the order the code
    makes them. *)
Definition prelude_calls (this : VersionManager) (content note : jsstring)
    (v : jsval) : list event :=
  [FsWriteFile (file_changelog this) (Some (changelogNew content note));
   FsWriteFile (file_version this) v;
   GitAdd (js ".");
   GitCommit (js "version " ++ toStr v);
   GitTag v].

(** The pushes of [remotes] on [branch], in order. *)
Definition pushed (branch : jsval) (remotes : list jsstring) : list event :=
  map (fun remote => GitPush remote branch) remotes.

(** The values the writes, the commit and the tag are made from: the
    changelog as read from disk, the note the operator left in the editor
    and the version the operator chose in the prompt. *)
Definition prelude_answers (this : VersionManager) (E : env)
    (content note : jsstring) (v : jsval) : Prop :=
  readFile E (file_changelog this) = Resolved content
  /\ (exists generated,
        prompt_messagesStringFinal E generated = Resolved note)
  /\ (exists choices, prompt_newVersion E choices = Resolved v).

(** The answers the push step pushes by: the operator confirmed, [branch]
    is the current branch of the status, and [sel] is what the operator
    selected among the names of the configured remotes. *)
Definition push_answers (E : env) (branch : jsval) (sel : list jsstring)
  : Prop :=
  prompt_confirmPush E = Resolved true
  /\ exists st remotes,
       status_push E = Resolved st /\ branch = Git.current st
       /\ getRemotes E = Resolved remotes
       /\ prompt_remotesSelected E (map Git.name remotes) = Resolved sel.

(** ** A scripted run

    A repository on branch main with version 1.2.3 and a changelog made of
    a title and one entry; the operator selects the patch version, keeps
    the generated note and every remote. *)

Definition sample_changelog : jsstring :=
  js "# Title" ++ [LF; LF] ++ js "Old entry" ++ [LF].

Definition sample_note : jsstring :=
  js "- 1.2.4 [ 2024-01-01 " ++ [EN_DASH] ++ js " 2024-01-02 ]" ++ [LF]
  ++ js "    -fix bug".

(** The note inserted right after the title block, nothing added. *)
Definition sample_merged : jsstring :=
  js "# Title" ++ [LF; LF]
  ++ js "- 1.2.4 [ 2024-01-01 " ++ [EN_DASH] ++ js " 2024-01-02 ]" ++ [LF]
  ++ js "    -fix bugOld entry" ++ [LF].

(** The same with a line break between the note and the old entry. *)
Definition sample_merged_with_break : jsstring :=
  js "# Title" ++ [LF; LF]
  ++ js "- 1.2.4 [ 2024-01-01 " ++ [EN_DASH] ++ js " 2024-01-02 ]" ++ [LF]
  ++ js "    -fix bug" ++ [LF] ++ js "Old entry" ++ [LF].

(** Three instants, as the commit log prints them and as [Date] reads
    them. *)
Definition sample_Date_parse (s : jsstring) : option Z :=
  if jsstring_eqb s (js "2024-01-01T09:30:00+00:00") then Some 1704101400000
  else if jsstring_eqb s (js "2024-01-02T09:30:00+00:00")
       then Some 1704187800000
  else if jsstring_eqb s (js "2024-06-01T00:00:00+00:00")
       then Some 1717200000000
  else None.

Definition sample_toISOString (t : Z) : jsstring :=
  if t =? 1704101400000 then js "2024-01-01T09:30:00.000Z"
  else if t =? 1704187800000 then js "2024-01-02T09:30:00.000Z"
  else if t =? 1717200000000 then js "2024-06-01T00:00:00.000Z"
  else if t =? 1704240000000 then js "2024-01-03T00:00:00.000Z"
  else js "1970-01-01T00:00:00.000Z".

Definition sample_commits : list Git.commit :=
  [ {| Git.message := js "fix bug";
       Git.date := js "2024-01-02T09:30:00+00:00" |};
    {| Git.message := js "add feature";
       Git.date := js "2024-01-01T09:30:00+00:00" |} ].

Definition scripted (version changelog : jsstring)
    (changed : list jsstring) (all : list Git.commit)
    (remotes : list Git.remote) (confirm : bool) (stashed : answer unit)
  : env :=
  {| status_precheck :=
       Resolved {| Git.files := changed; Git.current := Some (js "main") |};
     readFile := fun path =>
       if jsstring_eqb path (js "./changes.md")
       then Resolved changelog
       else Resolved version;
     prompt_newVersion := fun choices => Resolved (nth 2 choices None);
     tags_latest := Resolved (Some (js "1.2.3"));
     log_all := fun _ => Resolved all;
     Date_now := 1704240000000;
     Date_parse := sample_Date_parse;
     toISOString := sample_toISOString;
     prompt_messagesStringFinal := fun s => Resolved s;
     writeFile := fun _ _ => Resolved tt;
     add := Resolved tt;
     commit := fun _ => Resolved tt;
     tag := fun _ => Resolved tt;
     status_push :=
       Resolved {| Git.files := []; Git.current := Some (js "main") |};
     getRemotes := Resolved remotes;
     prompt_remotesSelected := fun choices => Resolved choices;
     diff := Resolved [];
     prompt_confirmPush := Resolved confirm;
     push := fun _ _ => Resolved tt;
     stash := stashed |}.

Definition origin : Git.remote := {| Git.name := js "origin" |}.

(** The run in which every call succeeds and the operator confirms. *)
Definition sample_env : env :=
  scripted (js "1.2.3" ++ [LF]) sample_changelog [] sample_commits [origin]
    true (Resolved tt).

(** No remote is configured, and the stash works. *)
Definition no_remotes_env : env :=
  scripted (js "1.2.3" ++ [LF]) sample_changelog [] sample_commits []
    true (Resolved tt).

(** The operator declines the push, and the stash works. *)
Definition declining_env : env :=
  scripted (js "1.2.3" ++ [LF]) sample_changelog [] sample_commits [origin]
    false (Resolved tt).

(** What git answers to a command that needs the index when the index is
    locked. *)
Definition index_locked : error :=
  JsError (js "fatal: Unable to create '.git/index.lock': File exists.").

(** The index is locked when the run comes to add: add is rejected with
    the message of git; the stash of the handler resolves. *)
Definition locked_index_env : env :=
  {| status_precheck := status_precheck sample_env;
     readFile := readFile sample_env;
     prompt_newVersion := prompt_newVersion sample_env;
     tags_latest := tags_latest sample_env;
     log_all := log_all sample_env;
     Date_now := Date_now sample_env;
     Date_parse := Date_parse sample_env;
     toISOString := toISOString sample_env;
     prompt_messagesStringFinal := prompt_messagesStringFinal sample_env;
     writeFile := writeFile sample_env;
     add := Rejected index_locked;
     commit := commit sample_env;
     tag := tag sample_env;
     status_push := status_push sample_env;
     getRemotes := getRemotes sample_env;
     prompt_remotesSelected := prompt_remotesSelected sample_env;
     diff := diff sample_env;
     prompt_confirmPush := prompt_confirmPush sample_env;
     push := push sample_env;
     stash := stash sample_env |}.

(** What [fs.readFile] answers for a file that does not exist. *)
Definition no_such_file : error :=
  JsError (js "ENOENT: no such file or directory, open './version.txt'").

(** What [git log] and [git stash] answer in a repository that has no
    commit. *)
Definition no_commits_to_log : error :=
  JsError
    (js "fatal: your current branch 'main' does not have any commits yet").

Definition no_initial_commit : error :=
  JsError (js "You do not have the initial commit yet").

(** A repository right after [git init]: no commit, no tag, no remote and
    an empty working tree. The status lists no file, no file can be read,
    and log and stash are rejected; a run stops at the first read, and
    never comes to the calls of the later steps. *)
Definition no_commit_env : env :=
  {| status_precheck :=
       Resolved {| Git.files := []; Git.current := Some (js "main") |};
     readFile := fun _ => Rejected no_such_file;
     prompt_newVersion := fun choices => Resolved (nth 2 choices None);
     tags_latest := Resolved None;
     log_all := fun _ => Rejected no_commits_to_log;
     Date_now := 1704240000000;
     Date_parse := sample_Date_parse;
     toISOString := sample_toISOString;
     prompt_messagesStringFinal := fun s => Resolved s;
     writeFile := fun _ _ => Resolved tt;
     add := Resolved tt;
     commit := fun _ => Resolved tt;
     tag := fun _ => Resolved tt;
     status_push :=
       Resolved {| Git.files := []; Git.current := Some (js "main") |};
     getRemotes := Resolved [];
     prompt_remotesSelected := fun choices => Resolved choices;
     diff := Resolved [];
     prompt_confirmPush := Resolved true;
     push := fun _ _ => Resolved tt;
     stash := Rejected no_initial_commit |}.

(** One commit, dated after the clock of the run (2024-01-03). *)
Definition future_commits : list Git.commit :=
  [ {| Git.message := js "fix bug";
       Git.date := js "2024-06-01T00:00:00+00:00" |} ].

Definition future_commit_env : env :=
  scripted (js "1.2.3" ++ [LF]) sample_changelog [] future_commits [origin]
    true (Resolved tt).

Definition live : VersionManager :=
  constructor {| opt_file_version := Some (js "./version.txt");
                 opt_file_changelog := Some (js "./changes.md");
                 opt_dry_run := Some false |}.

Definition dry : VersionManager :=
  constructor {| opt_file_version := Some (js "./version.txt");
                 opt_file_changelog := Some (js "./changes.md");
                 opt_dry_run := Some true |}.

(** * Properties *)

(** ** Strings: [indexOf] and [slice] *)

Lemma jsstring_eqb_refl (s : jsstring) : jsstring_eqb s s = true.
Proof. unfold jsstring_eqb. now destruct (list_eq_dec N.eq_dec s s). Qed.

Lemma startsWith_spec (s pat : jsstring) :
  startsWith s pat = true <-> exists rest, s = pat ++ rest.
Proof.
  revert s; induction pat as [|p pat IH]; intros s; simpl.
  - split; [intros _; now exists s | intros _; now destruct s].
  - destruct s as [|c s]; simpl.
    + split; [discriminate | intros [rest H]; discriminate].
    + rewrite andb_true_iff, N.eqb_eq, IH. split.
      * intros [-> [rest ->]]. now exists rest.
      * intros [rest H]. injection H as -> ->. split; [reflexivity | now exists rest].
Qed.

Lemma occurs_at_0 (pat s : jsstring) :
  occurs_at pat s 0 <-> startsWith s pat = true.
Proof. unfold occurs_at; simpl. symmetry; apply startsWith_spec. Qed.

Lemma occurs_at_S (pat : jsstring) c s i :
  occurs_at pat (c :: s) (S i) <-> occurs_at pat s i.
Proof. unfold occurs_at; simpl; tauto. Qed.

(** [indexOf] finds the first occurrence, or answers -1 when there is
    none. *)
Lemma indexOf_from_spec (pat s : jsstring) (k : Z) :
  (indexOf_from s pat k = -1 /\ forall i, ~ occurs_at pat s i)
  \/ (exists i, indexOf_from s pat k = k + Z.of_nat i
                /\ first_occurrence pat s i).
Proof.
  revert k; induction s as [|c s IH]; intros k.
  - cbn [indexOf_from]. destruct (startsWith [] pat) eqn:Hp.
    + right. exists 0%nat. split; [lia|]. split.
      * now apply occurs_at_0.
      * intros j Hj; lia.
    + left. split; [reflexivity|]. intros i [rest H].
      rewrite skipn_nil in H. destruct pat; [discriminate Hp | discriminate H].
  - cbn [indexOf_from]. destruct (startsWith (c :: s) pat) eqn:Hp.
    + right. exists 0%nat. split; [lia|]. split.
      * now apply occurs_at_0.
      * intros j Hj; lia.
    + destruct (IH (k + 1)) as [[Hm Hnone] | [i [Hi [Hocc Hfirst]]]].
      * left. split; [exact Hm|]. intros [|i] H.
        -- apply occurs_at_0 in H. congruence.
        -- apply occurs_at_S in H. exact (Hnone i H).
      * right. exists (S i). split; [lia|]. split.
        -- now apply occurs_at_S.
        -- intros [|j] Hj H.
           ++ apply occurs_at_0 in H. congruence.
           ++ apply occurs_at_S in H. apply (Hfirst j); [lia | exact H].
Qed.

Lemma first_occurrence_unique (pat s : jsstring) i j :
  first_occurrence pat s i -> first_occurrence pat s j -> i = j.
Proof.
  intros [Hi Hfi] [Hj Hfj].
  destruct (Nat.lt_trichotomy i j) as [H | [H | H]]; [|exact H|].
  - exfalso; exact (Hfj i H Hi).
  - exfalso; exact (Hfi j H Hj).
Qed.

Lemma indexOf_found (pat s : jsstring) i :
  first_occurrence pat s i -> indexOf s pat = Z.of_nat i.
Proof.
  intros H. unfold indexOf.
  destruct (indexOf_from_spec pat s 0) as [[_ Hnone] | [j [Hj Hfj]]].
  - exfalso. exact (Hnone i (proj1 H)).
  - rewrite Hj, (first_occurrence_unique _ _ _ _ H Hfj). lia.
Qed.

Lemma indexOf_missing (pat s : jsstring) :
  (forall i, ~ occurs_at pat s i) -> indexOf s pat = -1.
Proof.
  intros H. unfold indexOf.
  destruct (indexOf_from_spec pat s 0) as [[Hm _] | [j [_ [Hj _]]]].
  - exact Hm.
  - exfalso. exact (H j Hj).
Qed.

Lemma occurs_first (pat s : jsstring) i :
  occurs_at pat s i -> exists j, first_occurrence pat s j.
Proof.
  intros H.
  destruct (indexOf_from_spec pat s 0) as [[_ Hnone] | [j [_ Hfj]]].
  - exfalso. exact (Hnone i H).
  - now exists j.
Qed.

(** [s.slice(0, k)] and [s.slice(k)] for a non-negative [k]. *)
Lemma slice_head (s : jsstring) (k : nat) :
  slice s 0 (Some (Z.of_nat k)) = firstn k s.
Proof.
  unfold slice, clamp_index.
  replace (0 <? 0) with false by reflexivity.
  replace (Z.of_nat k <? 0) with false by (symmetry; apply Z.ltb_ge; lia).
  replace (Z.min 0 (Z.of_nat (List.length s))) with 0 by lia.
  cbn [Z.to_nat skipn].
  destruct (Nat.le_gt_cases k (List.length s)) as [Hle | Hgt].
  - f_equal. lia.
  - replace (Z.to_nat (Z.min (Z.of_nat k) (Z.of_nat (List.length s)) - 0))
      with (List.length s) by lia.
    rewrite firstn_all. symmetry. apply firstn_all2. lia.
Qed.

Lemma slice_tail (s : jsstring) (k : nat) :
  slice s (Z.of_nat k) None = skipn k s.
Proof.
  unfold slice, clamp_index.
  replace (Z.of_nat k <? 0) with false by (symmetry; apply Z.ltb_ge; lia).
  destruct (Nat.le_gt_cases k (List.length s)) as [Hle | Hgt].
  - replace (Z.to_nat (Z.min (Z.of_nat k) (Z.of_nat (List.length s))))
      with k by lia.
    apply firstn_all2. rewrite length_skipn. lia.
  - replace (Z.to_nat (Z.min (Z.of_nat k) (Z.of_nat (List.length s))))
      with (List.length s) by lia.
    rewrite (skipn_all2 (n := k)) by lia.
    rewrite skipn_all. apply firstn_nil.
Qed.

(** ** The changelog merge *)

Lemma occurs_at_app (pat p rest : jsstring) :
  occurs_at pat (p ++ pat ++ rest) (List.length p).
Proof.
  exists rest. rewrite skipn_app, skipn_all, Nat.sub_diag. reflexivity.
Qed.

Lemma blank_line_split (s : jsstring) i :
  occurs_at blank_line s i ->
  exists p rest, s = p ++ blank_line ++ rest /\ List.length p = i.
Proof.
  intros [rest H]. exists (firstn i s), rest. split.
  - rewrite <- H. symmetry. apply firstn_skipn.
  - apply firstn_length_le.
    assert (L : List.length (skipn i s) = List.length (blank_line ++ rest))
      by now rewrite H.
    rewrite length_skipn in L. simpl in L. lia.
Qed.

(** An occurrence that starts inside the title does not depend on what
    follows the separator. *)
Lemma occurs_before (p A B : jsstring) j :
  (j < List.length p)%nat ->
  occurs_at blank_line (p ++ blank_line ++ A) j ->
  occurs_at blank_line (p ++ blank_line ++ B) j.
Proof.
  intros Hj [rest H]. unfold occurs_at.
  rewrite skipn_app in *.
  replace (j - List.length p)%nat with 0%nat in * by lia.
  cbn [skipn] in *.
  assert (L : List.length (skipn j p) = (List.length p - j)%nat)
    by apply length_skipn.
  destruct (skipn j p) as [|x [|y q]]; simpl in L; [lia| |].
  - simpl in H. injection H as -> _. exists (LF :: B). reflexivity.
  - simpl in H. injection H as -> -> _.
    exists (q ++ blank_line ++ B). reflexivity.
Qed.

(** Inserting text right after the separator keeps the separator the
    first one. *)
Lemma first_occurrence_insert (p A B : jsstring) :
  first_occurrence blank_line (p ++ blank_line ++ A) (List.length p) ->
  first_occurrence blank_line (p ++ blank_line ++ B) (List.length p).
Proof.
  intros [_ Hfirst]. split.
  - apply occurs_at_app.
  - intros j Hj H. apply (Hfirst j Hj). now apply occurs_before with (A := B).
Qed.

Lemma changelogNew_found (content note : jsstring) i :
  first_occurrence blank_line content i ->
  changelogNew content note
  = firstn (i + 2) content ++ note ++ skipn (i + 2) content.
Proof.
  intros H. unfold changelogNew.
  change [LF; LF] with blank_line.
  rewrite (indexOf_found _ _ _ H).
  replace (Z.of_nat i + 2) with (Z.of_nat (i + 2)) by lia.
  now rewrite slice_head, slice_tail.
Qed.

Lemma changelogNew_missing (content note : jsstring) :
  (forall i, ~ occurs_at blank_line content i) ->
  changelogNew content note = firstn 1 content ++ note ++ skipn 1 content.
Proof.
  intros H. unfold changelogNew.
  change [LF; LF] with blank_line.
  rewrite (indexOf_missing _ _ H).
  change (-1 + 2) with (Z.of_nat 1).
  now rewrite slice_head, slice_tail.
Qed.

(** What [updateChangeLog] does outside dry-run once the changelog is
    read: one write of the merged document. *)
Lemma updateChangeLog_live this E (content note : jsstring) :
  dry_run this = false ->
  readFile E (file_changelog this) = Resolved content ->
  updateChangeLog this E note
  = call (FsReadFile (file_changelog this)) (Resolved content) ;;;
    call (FsWriteFile (file_changelog this)
            (Some (changelogNew content note)))
         (writeFile E (file_changelog this)
            (Some (changelogNew content note))).
Proof.
  intros Hd Hr. unfold updateChangeLog. rewrite Hd, Hr. reflexivity.
Qed.

Lemma merge_shape (content note : jsstring) i :
  first_occurrence blank_line content i ->
  let t := firstn (i + 2) content in
  let r := skipn (i + 2) content in
  title_block content t /\ entries content r
  /\ title_block (t ++ note ++ r) t /\ entries (t ++ note ++ r) (note ++ r).
Proof.
  intros H t r.
  destruct (blank_line_split _ _ (proj1 H)) as [p [rest [Hc Hp]]].
  assert (Ht : t = p ++ blank_line).
  { unfold t. rewrite Hc, <- Hp, app_assoc.
    replace (List.length p + 2)%nat with (List.length (p ++ blank_line))
      by (rewrite length_app; reflexivity).
    rewrite firstn_app, firstn_all, Nat.sub_diag. simpl. apply app_nil_r. }
  assert (Hr : r = rest).
  { unfold r. rewrite Hc, <- Hp, app_assoc.
    replace (List.length p + 2)%nat with (List.length (p ++ blank_line))
      by (rewrite length_app; reflexivity).
    rewrite skipn_app, skipn_all, Nat.sub_diag. reflexivity. }
  assert (Hout : first_occurrence blank_line (t ++ note ++ r) i).
  { rewrite Ht, <- app_assoc, <- Hp.
    apply first_occurrence_insert with (A := rest).
    rewrite Hp, <- Hc. exact H. }
  assert (Hlen : List.length t = (i + 2)%nat).
  { rewrite Ht, length_app, Hp. reflexivity. }
  repeat split.
  - exists i. split; [exact H | reflexivity].
  - exists i. split; [exact H | reflexivity].
  - exists i. split; [exact Hout|].
    rewrite <- Hlen, firstn_app, firstn_all, Nat.sub_diag. simpl.
    symmetry. apply app_nil_r.
  - exists i. split; [exact Hout|].
    rewrite <- Hlen, skipn_app, skipn_all, Nat.sub_diag. reflexivity.
Qed.

Lemma indexOf_negative (pat s : jsstring) :
  indexOf s pat = -1 -> forall i, ~ occurs_at pat s i.
Proof.
  unfold indexOf. intros H.
  destruct (indexOf_from_spec pat s 0) as [[_ Hnone] | [j [Hj _]]].
  - exact Hnone.
  - rewrite H in Hj. lia.
Qed.

Lemma indexOf_position (pat s : jsstring) i :
  indexOf s pat = Z.of_nat i -> first_occurrence pat s i.
Proof.
  unfold indexOf. intros H.
  destruct (indexOf_from_spec pat s 0) as [[Hm _] | [j [Hj Hf]]].
  - rewrite H in Hm. lia.
  - replace i with j by lia. exact Hf.
Qed.

(** C1 (amended): with the changelog [# Title\n\nOld entry\n] and the note
    [- 1.2.4 [ 2024-01-01 – 2024-01-02 ]\n    -fix bug], the document
    [updateChangeLog] writes back is the title block, the note as it is,
    and the old entry right behind it: no line break is added after the
    note. *)
Theorem updateChangeLog_scenario this E :
  dry_run this = false ->
  readFile E (file_changelog this) = Resolved sample_changelog ->
  trace (updateChangeLog this E sample_note)
  = [FsReadFile (file_changelog this);
     FsWriteFile (file_changelog this) (Some sample_merged)].
Proof.
  intros Hd Hr. rewrite (updateChangeLog_live _ _ _ _ Hd Hr).
  reflexivity.
Qed.

Lemma updateChangeLog_scenario_witness :
  trace (updateChangeLog live sample_env
           sample_note)
  = [FsReadFile (js "./changes.md");
     FsWriteFile (js "./changes.md") (Some sample_merged)].
Proof.
  apply (updateChangeLog_scenario live sample_env);
    reflexivity.
Defined.

(** C1 as stated fails: the document written in the scenario is not the
    one with a line break between the note and the old entry. *)
Lemma updateChangeLog_scenario_counterexample :
  trace (updateChangeLog live sample_env
           sample_note)
  = [FsReadFile (js "./changes.md");
     FsWriteFile (js "./changes.md") (Some sample_merged)]
  /\ sample_merged <> sample_merged_with_break.
Proof.
  split; [reflexivity | discriminate].
Qed.

(** C3: when the changelog holds a blank-line separator, the document
    [updateChangeLog] writes has the same title block as the one it read,
    and what followed the title block follows the inserted note
    unchanged. *)
Theorem updateChangeLog_keeps_title this E (content note : jsstring) :
  dry_run this = false ->
  readFile E (file_changelog this) = Resolved content ->
  (exists i, occurs_at blank_line content i) ->
  exists t r out,
    trace (updateChangeLog this E note)
    = [FsReadFile (file_changelog this);
       FsWriteFile (file_changelog this) (Some out)]
    /\ title_block content t /\ entries content r
    /\ out = t ++ note ++ r
    /\ title_block out t /\ entries out (note ++ r).
Proof.
  intros Hd Hr [i0 Hocc].
  destruct (occurs_first _ _ _ Hocc) as [i Hi].
  exists (firstn (i + 2) content), (skipn (i + 2) content),
         (changelogNew content note).
  rewrite (updateChangeLog_live _ _ _ _ Hd Hr).
  rewrite (changelogNew_found _ _ _ Hi).
  destruct (merge_shape content note i Hi) as [H1 [H2 [H3 H4]]].
  repeat split; assumption.
Qed.

Lemma updateChangeLog_keeps_title_witness :
  exists t r out,
    trace (updateChangeLog live sample_env
             sample_note)
    = [FsReadFile (js "./changes.md");
       FsWriteFile (js "./changes.md") (Some out)]
    /\ title_block sample_changelog t /\ entries sample_changelog r
    /\ out = t ++ sample_note ++ r
    /\ title_block out t /\ entries out (sample_note ++ r).
Proof.
  apply (updateChangeLog_keeps_title live sample_env
           sample_changelog sample_note);
    [reflexivity | reflexivity |].
  exists 7%nat, (js "Old entry" ++ [LF]). reflexivity.
Defined.

(** C10: when the changelog holds no blank-line separator, [indexOf]
    answers -1 and the split index is 1: [updateChangeLog] raises no error
    of its own and writes the first code unit of the file, then the note,
    then the rest of the file. *)
Theorem updateChangeLog_without_separator this E (content note : jsstring) :
  readFile E (file_changelog this) = Resolved content ->
  (forall i, ~ occurs_at blank_line content i) ->
  let doc := firstn 1 content ++ note ++ skipn 1 content in
  indexOf content blank_line + 2 = 1
  /\ (dry_run this = false ->
      trace (updateChangeLog this E note)
      = [FsReadFile (file_changelog this);
         FsWriteFile (file_changelog this) (Some doc)])
  /\ (dry_run this = true
      \/ writeFile E (file_changelog this) (Some doc) = Resolved tt ->
      result (updateChangeLog this E note) = Returned tt).
Proof.
  intros Hr Hnone doc. split; [|split].
  - rewrite (indexOf_missing _ _ Hnone). reflexivity.
  - intros Hd. rewrite (updateChangeLog_live _ _ _ _ Hd Hr).
    rewrite (changelogNew_missing _ _ Hnone). reflexivity.
  - intros H. destruct (dry_run this) eqn:Hd.
    + unfold updateChangeLog. rewrite Hr, Hd. reflexivity.
    + destruct H as [H | H]; [discriminate|].
      rewrite (updateChangeLog_live _ _ _ _ Hd Hr).
      rewrite (changelogNew_missing _ _ Hnone).
      subst doc. cbv [result bind call snd].
      match goal with
      | |- context [writeFile ?e ?f ?d] =>
          replace (writeFile e f d) with (@Resolved unit tt)
            by (symmetry; exact H)
      end.
      reflexivity.
Qed.

Lemma updateChangeLog_without_separator_witness :
  let E := scripted (js "1.2.3") (js "abc") [] [] [origin] true
             (Resolved tt) in
  indexOf (js "abc") blank_line + 2 = 1
  /\ (dry_run live = false ->
      trace (updateChangeLog live E (js "NOTE"))
      = [FsReadFile (js "./changes.md");
         FsWriteFile (js "./changes.md") (Some (js "aNOTEbc"))])
  /\ (dry_run live = true
      \/ writeFile E (js "./changes.md") (Some (js "aNOTEbc")) = Resolved tt ->
      result (updateChangeLog live E (js "NOTE")) = Returned tt).
Proof.
  intros E.
  apply (updateChangeLog_without_separator live E (js "abc") (js "NOTE"));
    [reflexivity | apply indexOf_negative; reflexivity].
Defined.

(** ** Traces of the workflow *)

Lemma trace_bind {A B} (m : M A) (f : A -> M B) :
  trace (bind m f)
  = trace m ++ match result m with
               | Returned a => trace (f a)
               | _ => []
               end.
Proof.
  destruct m as [t [a | e | c]]; cbn; [reflexivity | now rewrite app_nil_r ..].
Qed.

Lemma result_bind {A B} (m : M A) (f : A -> M B) :
  result (bind m f)
  = match result m with
    | Returned a => result (f a)
    | Thrown e => Thrown e
    | Exited c => Exited c
    end.
Proof.
  destruct m as [t [a | e | c]]; reflexivity.
Qed.

Lemma trace_try_catch {A} (m : M A) (h : error -> M A) :
  trace (try_catch m h)
  = trace m ++ match result m with
               | Thrown e => trace (h e)
               | _ => []
               end.
Proof.
  destruct m as [t [a | e | c]]; cbn;
    [now rewrite app_nil_r | reflexivity | now rewrite app_nil_r].
Qed.

Lemma result_try_catch {A} (m : M A) (h : error -> M A) :
  result (try_catch m h)
  = match result m with
    | Thrown e => result (h e)
    | r => r
    end.
Proof.
  destruct m as [t [a | e | c]]; reflexivity.
Qed.

Lemma read_only_app (t1 t2 : list event) :
  read_only t1 -> read_only t2 -> read_only (t1 ++ t2).
Proof. intros H1 H2. apply Forall_app. now split. Qed.

Lemma read_only_bind {A B} (m : M A) (f : A -> M B) :
  read_only (trace m) -> (forall a, read_only (trace (f a))) ->
  read_only (trace (bind m f)).
Proof.
  intros Hm Hf. rewrite trace_bind. apply read_only_app; [exact Hm|].
  destruct (result m); [apply Hf | constructor | constructor].
Qed.

Lemma read_only_try_catch {A} (m : M A) (h : error -> M A) :
  read_only (trace m) -> (forall e, read_only (trace (h e))) ->
  read_only (trace (try_catch m h)).
Proof.
  intros Hm Hh. rewrite trace_try_catch. apply read_only_app; [exact Hm|].
  destruct (result m); [constructor | apply Hh | constructor].
Qed.

Lemma read_only_call {A} (e : event) (a : answer A) :
  mutating e = false -> read_only (trace (call e a)).
Proof. intros H. repeat constructor. exact H. Qed.

Lemma read_only_emit (e : event) :
  mutating e = false -> read_only (trace (emit e)).
Proof. intros H. repeat constructor. exact H. Qed.

Lemma read_only_ret {A} (a : A) : read_only (trace (ret a)).
Proof. constructor. Qed.

Lemma read_only_throw {A} (e : error) : read_only (trace (@throw A e)).
Proof. constructor. Qed.

Lemma read_only_exit {A} (c : Z) : read_only (trace (@exit A c)).
Proof. repeat constructor. Qed.

(** One step of a proof that a method only reads: split a sequence, or
    close a single call. *)
Ltac read_only_step :=
  first
    [ apply read_only_bind; [| intros ?]
    | apply read_only_call; reflexivity
    | apply read_only_emit; reflexivity
    | apply read_only_ret
    | apply read_only_throw
    | apply read_only_exit
    | match goal with
      | |- read_only (trace (if ?b then _ else _)) => destruct b
      end ].

Section DryRun.

Variables (fv fc : jsstring) (E : env).

Let this : VersionManager :=
  {| file_version := fv; file_changelog := fc; dry_run := true |}.

Lemma pushEach_dry (remotesSelected : list jsstring) (branch : jsval) :
  read_only (trace (pushEach this E remotesSelected branch)).
Proof.
  induction remotesSelected as [|remote rest IH]; cbn [pushEach dry_run this].
  - apply read_only_ret.
  - repeat read_only_step. exact IH.
Qed.

Lemma pushToRemote_dry : read_only (trace (pushToRemote this E)).
Proof.
  unfold pushToRemote. repeat read_only_step. apply pushEach_dry.
Qed.

Lemma create_try_dry : read_only (trace (create_try this E)).
Proof.
  unfold create_try, checkForUncommittedChanges, getVersionFromFile,
    promptNewVersion, getFormattedVersionMessage, promptEditMessages,
    updateChangeLog, saveVersionToFile, commitAndTagVersion.
  cbn [dry_run this].
  repeat read_only_step; apply pushEach_dry.
Qed.

Lemma create_catch_dry (e : error) :
  read_only (trace (create_catch this E e)).
Proof.
  unfold create_catch, autoStash. cbn [dry_run this].
  repeat read_only_step.
Qed.

End DryRun.

(** C4: with [dry_run] set, whatever the collaborators and the operator
    answer, no step of [create] writes a file or calls add, commit, tag,
    stash or push. *)
Theorem dry_run_is_read_only (fv fc : jsstring) (E : env) :
  read_only
    (trace (create {| file_version := fv; file_changelog := fc;
                      dry_run := true |} E)).
Proof.
  unfold create. apply read_only_try_catch.
  - apply create_try_dry.
  - apply create_catch_dry.
Qed.

(** X2: started with [--dry-run] on the command line, the entry script makes
    no mutating call either. *)
Theorem main_dry_run_is_read_only (argv : list jsstring) (E : env) :
  In (js "--dry-run") argv -> read_only (trace (main argv E)).
Proof.
  intros Hin. unfold main.
  replace (existsb (jsstring_eqb (js "--dry-run")) argv) with true.
  - unfold create, constructor. cbn [opt_file_version opt_file_changelog
      opt_dry_run]. apply read_only_try_catch.
    + apply create_try_dry.
    + apply create_catch_dry.
  - symmetry. apply existsb_exists. exists (js "--dry-run").
    split; [exact Hin | apply jsstring_eqb_refl].
Qed.

Lemma main_dry_run_is_read_only_witness :
  read_only (trace (main [js "node"; js "index.js"; js "--dry-run"]
                      sample_env)).
Proof.
  apply (main_dry_run_is_read_only [js "node"; js "index.js"; js "--dry-run"]
           sample_env).
  right. right. now left.
Defined.

(** ** The precondition check *)

Lemma checkForUncommittedChanges_clean this E st :
  status_precheck E = Resolved st -> Git.files st = [] ->
  checkForUncommittedChanges this E = ([GitStatus], Returned tt).
Proof.
  intros Hs Hf. unfold checkForUncommittedChanges. rewrite Hs. cbn.
  rewrite Hf. reflexivity.
Qed.

(** C8: when the status lists a changed file and [dry_run] is off, the
    run is the status query, the error message and [process.exit(1)], and
    nothing else; when the status lists no file, the check returns and the
    run goes on to read the version file, with [dry_run] on or off. *)
Theorem uncommitted_changes_exit this E st :
  status_precheck E = Resolved st ->
  (Git.files st <> [] -> dry_run this = false ->
   create this E
   = ([GitStatus; ConsoleError uncommitted_message None; ProcessExit 1],
      Exited 1))
  /\ (Git.files st = [] ->
      checkForUncommittedChanges this E = ([GitStatus], Returned tt)
      /\ exists rest,
           trace (create this E)
           = GitStatus :: FsReadFile (file_version this) :: rest).
Proof.
  intros Hs. split.
  - intros Hf Hd. unfold create, create_try, checkForUncommittedChanges.
    rewrite Hs, Hd. cbn [bind call].
    destruct (Git.files st) as [|f fs]; [contradiction | reflexivity].
  - intros Hf.
    split; [exact (checkForUncommittedChanges_clean this E st Hs Hf)|].
    unfold create. rewrite trace_try_catch. unfold create_try.
    rewrite (checkForUncommittedChanges_clean _ _ _ Hs Hf).
    rewrite !trace_bind. unfold getVersionFromFile.
    rewrite !result_bind, !trace_bind. cbn [trace result call ret fst snd app].
    eexists. reflexivity.
Qed.

Lemma uncommitted_changes_exit_witness :
  (create live
     (scripted (js "1.2.3") sample_changelog [js "README.md"]
        sample_commits [origin] true (Resolved tt))
   = ([GitStatus; ConsoleError uncommitted_message None; ProcessExit 1],
      Exited 1))
  /\ checkForUncommittedChanges dry sample_env = ([GitStatus], Returned tt).
Proof.
  split.
  - apply (uncommitted_changes_exit live
             (scripted (js "1.2.3") sample_changelog [js "README.md"]
                sample_commits [origin] true (Resolved tt))
             {| Git.files := [js "README.md"];
                Git.current := Some (js "main") |});
      [reflexivity | discriminate | reflexivity].
  - apply (uncommitted_changes_exit dry sample_env
             {| Git.files := []; Git.current := Some (js "main") |});
      reflexivity.
Defined.

(** ** Running the workflow step by step *)

Lemma prepend_nil {A} (m : M A) : prepend [] m = m.
Proof. now destruct m. Qed.

Lemma prepend_prepend {A} (t u : list event) (m : M A) :
  prepend t (prepend u m) = prepend (t ++ u) m.
Proof. unfold prepend; cbn. now rewrite app_assoc. Qed.

Lemma prepend_pair {A} (t u : list event) (o : outcome A) :
  prepend t (u, o) = (t ++ u, o).
Proof. reflexivity. Qed.

Lemma trace_prepend {A} (t : list event) (m : M A) :
  trace (prepend t m) = t ++ trace m.
Proof. reflexivity. Qed.

Lemma result_prepend {A} (t : list event) (m : M A) :
  result (prepend t m) = result m.
Proof. reflexivity. Qed.

Lemma bind_prepend {A B} (t : list event) (m : M A) (f : A -> M B) :
  bind (prepend t m) f = prepend t (bind m f).
Proof.
  destruct m as [u [a | e | c]]; cbn; try reflexivity.
  unfold prepend; cbn. now rewrite app_assoc.
Qed.

Lemma bind_assoc {A B C} (m : M A) (f : A -> M B) (g : B -> M C) :
  bind (bind m f) g = bind m (fun a => bind (f a) g).
Proof.
  destruct m as [t [a | e | c]]; cbn; try reflexivity.
  apply bind_prepend.
Qed.

Lemma bind_ret {A B} (a : A) (f : A -> M B) : bind (ret a) f = f a.
Proof. apply prepend_nil. Qed.

Lemma bind_emit {B} (e : event) (f : unit -> M B) :
  bind (emit e) f = prepend [e] (f tt).
Proof. reflexivity. Qed.

Lemma bind_call_Resolved {A B} (e : event) (a : A) (f : A -> M B) :
  bind (call e (Resolved a)) f = prepend [e] (f a).
Proof. reflexivity. Qed.

Lemma bind_call_Rejected {A B} (e : event) (err : error) (f : A -> M B) :
  bind (call e (@Rejected A err)) f = ([e], Thrown err).
Proof. reflexivity. Qed.

Lemma bind_throw {A B} (err : error) (f : A -> M B) :
  bind (throw err) f = throw err.
Proof. reflexivity. Qed.

Lemma bind_exit {A B} (c : Z) (f : A -> M B) : bind (exit c) f = exit c.
Proof. reflexivity. Qed.

(** Normalise a sequence whose first call has been answered. *)
Ltac run :=
  repeat first
    [ rewrite bind_assoc
    | rewrite bind_ret
    | rewrite bind_emit
    | rewrite bind_call_Resolved
    | rewrite bind_call_Rejected
    | rewrite bind_throw
    | rewrite bind_exit
    | rewrite prepend_prepend
    | rewrite prepend_pair ];
  cbn [app].

(** The first call or test of a sequence. *)
Ltac head_of m :=
  lazymatch m with
  | prepend _ ?m' => head_of m'
  | bind ?m' _ => head_of m'
  | _ => m
  end.

(** Case analysis on the answer to the next call of a sequence [m], or on
    the test it starts with. *)
Ltac advance m :=
  let h := head_of m in
  lazymatch h with
  | call _ ?a => destruct a as [? | ?] eqn:?
  | (if ?c then _ else _) => destruct c eqn:?
  end;
  run.

(** The run stopped before the push step. *)
Ltac stopped :=
  right; cbn [trace fst]; unfold before_push; repeat constructor.

(** Either every step before the push succeeded, or the run ended without
    reaching the push step. *)
Lemma create_try_cases this E :
  (exists pre,
     create_try this E
     = prepend pre (pushToRemote this E ;;; emit (ConsoleLog (js "Done!")))
     /\ before_push pre
     /\ (dry_run this = false -> prelude_live this E pre))
  \/ before_push (trace (create_try this E)).
Proof.
  unfold create_try, checkForUncommittedChanges, getVersionFromFile,
    promptNewVersion, getFormattedVersionMessage, promptEditMessages,
    updateChangeLog, saveVersionToFile, commitAndTagVersion.
  run.
  repeat lazymatch goal with
         | |- (exists pre, ?m = _ /\ _) \/ _ => advance m
         end.
  all: try solve [stopped].
  all: left; eexists; split; [reflexivity|].
  all: split; [unfold before_push; repeat constructor|].
  all: intros Hd; try discriminate Hd.
  all: unfold prelude_live; do 3 eexists; cbn [filter mutating].
  all: repeat match goal with u : unit |- _ => destruct u end.
  all: repeat split; try reflexivity; eassumption.
Qed.

Lemma before_push_not_in (t : list event) (x : event) :
  before_push t -> push_step x = true -> ~ In x t.
Proof.
  intros Ht Hx Hin. unfold before_push in Ht. rewrite Forall_forall in Ht.
  specialize (Ht x Hin). congruence.
Qed.

(** A run whose trace shows a call of the push step went through every
    step before it. *)
Lemma reaches_push this E (x : event) :
  push_step x = true ->
  In x (trace (create_try this E)) ->
  exists pre,
    create_try this E
    = prepend pre (pushToRemote this E ;;; emit (ConsoleLog (js "Done!")))
    /\ (dry_run this = false -> prelude_live this E pre)
    /\ In x (trace (pushToRemote this E)).
Proof.
  intros Hx Hin.
  destruct (create_try_cases this E) as [[pre [Heq [Hpre Hlive]]] | Hstop].
  - exists pre. split; [exact Heq|]. split; [exact Hlive|].
    rewrite Heq, trace_prepend, trace_bind in Hin.
    apply in_app_or in Hin. destruct Hin as [Hin | Hin].
    + exfalso. exact (before_push_not_in _ _ Hpre Hx Hin).
    + apply in_app_or in Hin. destruct Hin as [Hin | Hin]; [exact Hin|].
      destruct (result (pushToRemote this E)); cbn [trace emit fst In] in Hin;
        [destruct Hin as [<- | []]; discriminate Hx | contradiction ..].
  - exfalso. exact (before_push_not_in _ _ Hstop Hx Hin).
Qed.

(** The trace does not hold the call [x]. *)
Ltac not_in H :=
  cbn [trace fst snd prepend throw exit emit ret call app In] in H;
  repeat (destruct H as [H | H]; [discriminate H|]);
  contradiction.

Lemma pushToRemote_no_remotes this E :
  getRemotes E = Resolved [] ->
  In GitGetRemotes (trace (pushToRemote this E)) ->
  pushToRemote this E = ([GitStatus; GitGetRemotes], Thrown NoRemotesError).
Proof.
  intros Hr. unfold pushToRemote.
  destruct (status_push E) as [st | e0]; [| intros Hin; not_in Hin].
  rewrite Hr. reflexivity.
Qed.

Lemma pushToRemote_declined this E :
  prompt_confirmPush E = Resolved false ->
  In PromptConfirm (trace (pushToRemote this E)) ->
  exists choices d,
    pushToRemote this E
    = ([GitStatus; GitGetRemotes; PromptCheckbox choices; GitDiff;
        ConsoleLog d; PromptConfirm],
       Thrown PushCancelledError).
Proof.
  intros Hc. unfold pushToRemote. rewrite Hc.
  destruct (status_push E) as [st | e0]; run;
    [| intros Hin; not_in Hin].
  destruct (getRemotes E) as [[|r remotes] | e1]; run;
    try (intros Hin; not_in Hin).
  change (Nat.eqb (List.length (r :: remotes)) 0) with false. cbv iota.
  destruct (prompt_remotesSelected E (map Git.name (r :: remotes)))
    as [sel | e2]; run; [| intros Hin; not_in Hin].
  destruct (diff E) as [d | e3]; run; [| intros Hin; not_in Hin].
  intros _. eexists _, _. reflexivity.
Qed.

Lemma create_catch_reports this E (e : error) :
  dry_run this = true \/ stash E = Resolved tt ->
  result (create_catch this E e) = Returned tt
  /\ exists t,
       trace (create_catch this E e)
       = t ++ [ConsoleError (js "Error:") (Some e)].
Proof.
  intros H. unfold create_catch, autoStash.
  destruct (dry_run this) eqn:Hd.
  - split; [reflexivity|]. eexists [_]. reflexivity.
  - destruct H as [H | H]; [discriminate|]. rewrite H.
    split; [reflexivity|]. eexists [_; _]. reflexivity.
Qed.

Lemma create_catch_starts this E (e : error) :
  exists rest,
    trace (create_catch this E e)
    = (if dry_run this
       then ConsoleLog (js "Dry run: Uncommitted changes would be stashed.")
       else GitStash) :: rest.
Proof.
  unfold create_catch, autoStash. destruct (dry_run this).
  - eexists. reflexivity.
  - destruct (stash E) as [[] | e0]; eexists; reflexivity.
Qed.

Lemma create_after_throw this E (e : error) :
  result (create_try this E) = Thrown e ->
  create this E = prepend (trace (create_try this E)) (create_catch this E e).
Proof.
  unfold create, try_catch, result, trace.
  destruct (create_try this E) as [t [a | e' | c]]; cbn; try discriminate.
  now intros [= ->].
Qed.

(** C5 (amended): an error thrown by a step of [create] is caught by the
    one handler of [create], which first runs the auto-stash (its report
    in dry-run); when the auto-stash completes, as it always does in
    dry-run, the error is printed and [create] returns instead of
    throwing. With no remote configured the push step throws the
    no-remotes error, which takes this path. *)
Theorem create_catches_errors this E :
  (forall e, result (create_try this E) = Thrown e ->
     trace (create this E)
     = trace (create_try this E) ++ trace (create_catch this E e)
     /\ (exists rest,
           trace (create_catch this E e)
           = (if dry_run this
              then ConsoleLog
                     (js "Dry run: Uncommitted changes would be stashed.")
              else GitStash) :: rest)
     /\ (dry_run this = true \/ stash E = Resolved tt ->
         result (create this E) = Returned tt
         /\ exists t,
              trace (create this E)
              = t ++ [ConsoleError (js "Error:") (Some e)]))
  /\ (In GitGetRemotes (trace (create_try this E)) ->
      getRemotes E = Resolved [] ->
      result (create_try this E) = Thrown NoRemotesError).
Proof.
  split.
  - intros e He. rewrite (create_after_throw _ _ _ He).
    split; [reflexivity|]. split; [apply create_catch_starts|].
    intros H. destruct (create_catch_reports this E e H) as [Hr [t Ht]].
    split; [exact Hr|].
    exists (trace (create_try this E) ++ t).
    rewrite trace_prepend, Ht. apply app_assoc.
  - intros Hin Hr.
    destruct (reaches_push this E GitGetRemotes eq_refl Hin)
      as [pre [Heq [_ Hin']]].
    rewrite Heq, (pushToRemote_no_remotes _ _ Hr Hin'). reflexivity.
Qed.

Lemma create_catches_errors_witness :
  result (create_try live no_remotes_env) = Thrown NoRemotesError
  /\ result (create live no_remotes_env) = Returned tt.
Proof.
  destruct (create_catches_errors live no_remotes_env) as [H1 H2].
  assert (Hn : result (create_try live no_remotes_env)
               = Thrown NoRemotesError).
  { apply H2; [vm_compute; tauto | reflexivity]. }
  split; [exact Hn|].
  destruct (H1 _ Hn) as [_ [_ H3]].
  exact (proj1 (H3 (or_intror eq_refl))).
Defined.

(** C5 as stated fails: in a repository with no commit yet and an empty
    working tree the precondition check passes, the read of the version
    file is rejected and the handler catches that error; the stash of the
    handler is rejected in turn, so [create] ends by throwing the error of
    the stash and the caught error is never printed. *)
Lemma create_catches_errors_counterexample :
  result (checkForUncommittedChanges live no_commit_env) = Returned tt
  /\ result (create_try live no_commit_env) = Thrown no_such_file
  /\ create live no_commit_env
     = ([GitStatus; FsReadFile (js "./version.txt"); GitStash],
        Thrown no_initial_commit)
  /\ ~ reports no_such_file (trace (create live no_commit_env)).
Proof.
  split; [reflexivity|]. split; [reflexivity|]. split; [reflexivity|].
  unfold reports. vm_compute. intuition discriminate.
Qed.

Lemma filter_mutating_app (t u : list event) :
  filter mutating (t ++ u) = filter mutating t ++ filter mutating u.
Proof. apply filter_app. Qed.

(** Outside dry-run the handler makes one mutating call, the stash. *)
Lemma create_catch_live this E (e : error) :
  dry_run this = false ->
  filter mutating (trace (create_catch this E e)) = [GitStash].
Proof.
  intros Hd. unfold create_catch, autoStash. rewrite Hd.
  destruct (stash E) as [[] | e0]; reflexivity.
Qed.

(** C7: outside dry-run, when the run reaches the push confirmation and
    the operator declines, the push step throws the cancellation error,
    which the handler of [create] catches, prints and does not throw
    again: [create] returns with the cancellation error reported. The
    files were written and add, commit and tag had succeeded; the only
    mutating call that follows them is the stash of the handler, so the
    commit and the tag stay. The stash of the handler runs in a repository
    whose log was read and on the tree the commit left; git answers it
    there, which is the hypothesis [stash E = Resolved tt]. *)
Theorem push_declined this E :
  dry_run this = false ->
  In PromptConfirm (trace (create_try this E)) ->
  prompt_confirmPush E = Resolved false ->
  stash E = Resolved tt ->
  result (create_try this E) = Thrown PushCancelledError
  /\ result (create this E) = Returned tt
  /\ reports PushCancelledError (trace (create this E))
  /\ (exists content note v,
        filter mutating (trace (create this E))
        = [FsWriteFile (file_changelog this)
             (Some (changelogNew content note));
           FsWriteFile (file_version this) v;
           GitAdd (js ".");
           GitCommit (js "version " ++ toStr v);
           GitTag v;
           GitStash]
        /\ add E = Resolved tt
        /\ commit E (js "version " ++ toStr v) = Resolved tt
        /\ tag E v = Resolved tt).
Proof.
  intros Hd Hin Hc Hs.
  destruct (reaches_push this E PromptConfirm eq_refl Hin)
    as [pre [Heq [Hlive Hin']]].
  destruct (pushToRemote_declined this E Hc Hin') as [choices [d Hpush]].
  assert (Hres : result (create_try this E) = Thrown PushCancelledError).
  { rewrite Heq, Hpush. reflexivity. }
  split; [exact Hres|].
  destruct (create_catch_reports this E PushCancelledError
              (or_intror Hs)) as [Hr [t Ht]].
  split; [|split].
  - rewrite (create_after_throw _ _ _ Hres). exact Hr.
  - rewrite (create_after_throw _ _ _ Hres).
    unfold reports. rewrite trace_prepend, Ht.
    apply in_or_app. right. apply in_or_app. right. now left.
  - destruct (Hlive Hd) as [content [note [v [Hpre [Ha [Hco Htag]]]]]].
    exists content, note, v. repeat split; try assumption.
    rewrite (create_after_throw _ _ _ Hres), trace_prepend.
    rewrite filter_mutating_app, (create_catch_live _ _ _ Hd).
    rewrite Heq, Hpush, trace_prepend, filter_mutating_app, Hpre.
    reflexivity.
Qed.

Lemma push_declined_witness :
  result (create_try live declining_env) = Thrown PushCancelledError
  /\ result (create live declining_env) = Returned tt
  /\ reports PushCancelledError (trace (create live declining_env))
  /\ filter mutating (trace (create live declining_env))
     = [FsWriteFile (js "./changes.md")
          (Some (changelogNew sample_changelog
                   (js "- 1.2.4 [ 2024-01-01 " ++ [EN_DASH]
                    ++ js " 2024-01-02 ]" ++ [LF] ++ js "    -fix bug"
                    ++ [LF] ++ js "    -add feature")));
        FsWriteFile (js "./version.txt") (Some (js "1.2.4"));
        GitAdd (js ".");
        GitCommit (js "version 1.2.4");
        GitTag (Some (js "1.2.4"));
        GitStash].
Proof.
  destruct (push_declined live declining_env) as [H1 [H2 [H3 _]]];
    [reflexivity | vm_compute; tauto | reflexivity | reflexivity |].
  split; [exact H1|]. split; [exact H2|]. split; [exact H3|].
  reflexivity.
Defined.

(** In the scripted run the version file holds 1.2.3 and the operator
    selects the patch version; outside dry-run the mutating calls are, in
    order, the two writes (the version file receives exactly 1.2.4), add,
    the commit [version 1.2.4], the tag 1.2.4 and the push, and the run
    completes. *)
Theorem patch_release_scenario :
  result (create live sample_env) = Returned tt
  /\ filter mutating (trace (create live sample_env))
     = [FsWriteFile (js "./changes.md")
          (Some (changelogNew sample_changelog
                   (js "- 1.2.4 [ 2024-01-01 " ++ [EN_DASH]
                    ++ js " 2024-01-02 ]" ++ [LF] ++ js "    -fix bug"
                    ++ [LF] ++ js "    -add feature")));
        FsWriteFile (js "./version.txt") (Some (js "1.2.4"));
        GitAdd (js ".");
        GitCommit (js "version 1.2.4");
        GitTag (Some (js "1.2.4"));
        GitPush (js "origin") (Some (js "main"))].
Proof. split; reflexivity. Qed.

(** ** The release note *)

(** The loop over the commits keeps in [from] the minimum of its initial
    value and the commit instants, and in [to] the maximum. *)
Lemma fold_visit (parse : jsstring -> option Z) (all : list Git.commit)
    (d : dates) :
  from (fold_left (visit parse) all d)
  = fold_left Z.min (commit_times parse all) (from d)
  /\ to (fold_left (visit parse) all d)
     = fold_left Z.max (commit_times parse all) (to d).
Proof.
  revert d; induction all as [|c all IH]; intros d; [now split|].
  cbn [fold_left]. destruct (IH (visit parse d c)) as [Hf Ht].
  rewrite Hf, Ht. unfold commit_times, visit. cbn [flat_map].
  destruct (parse (Git.date c)) as [t|]; cbn [app fold_left]; [|now split].
  destruct (t <? from d) eqn:H1; cbn [from to];
    destruct (to d <? t) eqn:H2; cbn [from to];
    try apply Z.ltb_lt in H1; try apply Z.ltb_ge in H1;
    try apply Z.ltb_lt in H2; try apply Z.ltb_ge in H2;
    split; f_equal; lia.
Qed.

Lemma fold_min_le (l : list Z) (a : Z) : fold_left Z.min l a <= a.
Proof.
  revert a; induction l as [|x l IH]; intros a; cbn; [lia|].
  specialize (IH (Z.min a x)). lia.
Qed.

Lemma fold_max_ge (l : list Z) (a : Z) : a <= fold_left Z.max l a.
Proof.
  revert a; induction l as [|x l IH]; intros a; cbn; [lia|].
  specialize (IH (Z.max a x)). lia.
Qed.

(** The dates of the title never leave the interval from the epoch to the
    clock of the run: [from] is at most the clock, [to] at least the
    epoch. *)
Lemma dates_bounded_by_clock (parse : jsstring -> option Z)
    (all : list Git.commit) (now : Z) :
  let d := fold_left (visit parse) all {| from := now; to := 0 |} in
  from d <= now /\ 0 <= to d.
Proof.
  intros d. destruct (fold_visit parse all {| from := now; to := 0 |})
    as [Hf Ht].
  subst d. rewrite Hf, Ht. cbn [from to].
  split; [apply fold_min_le | apply fold_max_ge].
Qed.

(** C6, on the failing input: with the clock at 2024-01-03 and one commit
    dated 2024-06-01, the title of the note starts its range at the date of
    the clock, not at the date of the only commit. *)
Lemma release_note_future_commit :
  getFormattedVersionMessage future_commit_env (Some (js "1.2.4"))
  = ([GitTags; GitLog (Some (js "1.2.3"))],
     Returned (js "- 1.2.4 [ 2024-01-03 " ++ [EN_DASH] ++ js " 2024-06-01 ]"
               ++ [LF] ++ js "    -fix bug")).
Proof. reflexivity. Qed.

(** The note of the scripted run, whose two commits are older than the
    clock. *)
Lemma release_note_sample :
  getFormattedVersionMessage sample_env (Some (js "1.2.4"))
  = ([GitTags; GitLog (Some (js "1.2.3"))],
     Returned (js "- 1.2.4 [ 2024-01-01 " ++ [EN_DASH] ++ js " 2024-01-02 ]"
               ++ [LF] ++ js "    -fix bug" ++ [LF]
               ++ js "    -add feature")).
Proof. reflexivity. Qed.

Lemma fold_min_spec (ts : list Z) (a : Z) :
  (fold_left Z.min ts a = a \/ In (fold_left Z.min ts a) ts)
  /\ Forall (fun t => fold_left Z.min ts a <= t) ts.
Proof.
  revert a; induction ts as [|x ts IH]; intros a; cbn [fold_left].
  - split; [now left | constructor].
  - destruct (IH (Z.min a x)) as [Hin Hall].
    pose proof (fold_min_le ts (Z.min a x)) as Hle. split.
    + destruct Hin as [Hin | Hin]; [|now right; right].
      rewrite Hin.
      destruct (Z.min_spec a x) as [[_ Hm] | [_ Hm]]; rewrite Hm;
        [now left | right; now left].
    + constructor; [lia | exact Hall].
Qed.

Lemma fold_max_spec (ts : list Z) (a : Z) :
  (fold_left Z.max ts a = a \/ In (fold_left Z.max ts a) ts)
  /\ Forall (fun t => t <= fold_left Z.max ts a) ts.
Proof.
  revert a; induction ts as [|x ts IH]; intros a; cbn [fold_left].
  - split; [now left | constructor].
  - destruct (IH (Z.max a x)) as [Hin Hall].
    pose proof (fold_max_ge ts (Z.max a x)) as Hle. split.
    + destruct Hin as [Hin | Hin]; [|now right; right].
      rewrite Hin.
      destruct (Z.max_spec a x) as [[_ Hm] | [_ Hm]]; rewrite Hm;
        [right; now left | now left].
    + constructor; [lia | exact Hall].
Qed.

Lemma commit_times_all_valid (parse : jsstring -> option Z)
    (all : list Git.commit) (ts : list Z) :
  map (fun c => parse (Git.date c)) all = map Some ts ->
  commit_times parse all = ts.
Proof.
  revert ts; induction all as [|c all IH]; intros [|t ts] H;
    try discriminate; [reflexivity|].
  cbn in H. injection H as Hc H. unfold commit_times. cbn [flat_map].
  rewrite Hc. cbn [app]. f_equal. now apply IH.
Qed.

(** X1: when every commit date reads as an instant between the epoch and
    the clock of the run, the note is the title with the dates of the earliest
    and of the latest commit, a line break, and one line per commit: four
    spaces, a dash and the message. *)
Theorem release_note_format E (newVersion latest : jsval)
    (all : list Git.commit) (ts : list Z) :
  tags_latest E = Resolved latest ->
  log_all E (if truthy latest then latest else None) = Resolved all ->
  map (fun c => Date_parse E (Git.date c)) all = map Some ts ->
  all <> [] ->
  Forall (fun t => 0 <= t <= Date_now E) ts ->
  exists lo hi,
    In lo ts /\ In hi ts /\ Forall (fun t => lo <= t <= hi) ts
    /\ result (getFormattedVersionMessage E newVersion)
       = Returned
           ((js "- " ++ toStr newVersion ++ js " [ "
             ++ substring (toISOString E lo) 0 10
             ++ [32%N; EN_DASH; 32%N]
             ++ substring (toISOString E hi) 0 10 ++ js " ]")
            ++ [LF]
            ++ join [LF] (map (fun c => js "    -" ++ Git.message c) all)).
Proof.
  intros Htags Hlog Hdates Hne Hrange.
  pose proof (commit_times_all_valid _ _ _ Hdates) as Htimes.
  destruct (fold_visit (Date_parse E) all {| from := Date_now E; to := 0 |})
    as [Hf Ht].
  rewrite Htimes in Hf, Ht. cbn [from to] in Hf, Ht.
  destruct (fold_min_spec ts (Date_now E)) as [Hmin Hlow].
  destruct (fold_max_spec ts 0) as [Hmax Hhigh].
  rewrite <- Hf in Hmin, Hlow. rewrite <- Ht in Hmax, Hhigh.
  set (d := fold_left (visit (Date_parse E)) all
              {| from := Date_now E; to := 0 |}) in *.
  assert (Hts : exists t0, In t0 ts).
  { destruct ts as [|t0 ts]; [|exists t0; now left].
    destruct all; [contradiction | discriminate Hdates]. }
  destruct Hts as [t0 Ht0].
  rewrite Forall_forall in Hrange, Hlow, Hhigh.
  assert (Hlo : In (from d) ts).
  { destruct Hmin as [Hmin | Hmin]; [|exact Hmin].
    pose proof (Hrange t0 Ht0). pose proof (Hlow t0 Ht0).
    replace (from d) with t0 by lia. exact Ht0. }
  assert (Hhi : In (to d) ts).
  { destruct Hmax as [Hmax | Hmax]; [|exact Hmax].
    pose proof (Hrange t0 Ht0). pose proof (Hhigh t0 Ht0).
    replace (to d) with t0 by lia. exact Ht0. }
  exists (from d), (to d). split; [exact Hlo|]. split; [exact Hhi|]. split.
  - apply Forall_forall. intros t Hin. split; [now apply Hlow | now apply Hhigh].
  - unfold getFormattedVersionMessage. rewrite Htags.
    rewrite bind_call_Resolved, result_prepend.
    destruct (truthy latest); rewrite Hlog;
      rewrite bind_call_Resolved, result_prepend; cbn [result ret snd];
      unfold formatVersionMessage; fold d; now rewrite map_map.
Qed.

Lemma release_note_format_witness :
  result (getFormattedVersionMessage sample_env (Some (js "1.2.4")))
  = Returned (js "- 1.2.4 [ 2024-01-01 " ++ [EN_DASH] ++ js " 2024-01-02 ]"
              ++ [LF] ++ js "    -fix bug" ++ [LF]
              ++ js "    -add feature").
Proof.
  destruct (release_note_format sample_env (Some (js "1.2.4"))
              (Some (js "1.2.3")) sample_commits
              [1704187800000; 1704101400000])
    as [lo [hi [Hlo [Hhi [_ H]]]]];
    [reflexivity | reflexivity | reflexivity | discriminate
    | repeat (constructor; [split; cbn; lia|]); constructor |].
  destruct Hlo as [<- | [<- | []]]; destruct Hhi as [<- | [<- | []]];
    first [exact H | exfalso; vm_compute in H; discriminate H].
Defined.

(** ** Proposing the next versions *)

(** C2 (amended): for a current version that does not parse,
    [proposeNextVersions] does not fail: each of the five candidates is
    [null], the five are the choices [promptNewVersion] hands to the
    prompt, and [promptNewVersion] throws only what the prompt itself
    rejects with. *)
Theorem invalid_version_proposes_null E (currentVersion : jsstring) :
  Semver.parse currentVersion = None ->
  proposeNextVersions currentVersion = no_candidates
  /\ trace (promptNewVersion E currentVersion)
     = [PromptList [None; None; None; None; None]]
  /\ (forall e,
        result (promptNewVersion E currentVersion) = Thrown e
        <-> prompt_newVersion E [None; None; None; None; None]
            = Rejected e).
Proof.
  intros Hp.
  assert (Hn : proposeNextVersions currentVersion = no_candidates).
  { unfold proposeNextVersions, Semver.inc. rewrite Hp. reflexivity. }
  split; [exact Hn|].
  unfold promptNewVersion. rewrite Hn. cbn [Object_values no_candidates
    nextAlpha nextBeta nextPatch nextFeature nextMajor].
  split; [reflexivity|].
  intros e. unfold result, call. cbn [snd].
  destruct (prompt_newVersion E _) as [v | e'].
  - split; intros H; discriminate H.
  - split; intros H; injection H as ->; reflexivity.
Qed.

Lemma invalid_version_proposes_null_witness :
  proposeNextVersions (js "not-a-version") = no_candidates
  /\ trace (promptNewVersion sample_env (js "not-a-version"))
     = [PromptList [None; None; None; None; None]].
Proof.
  destruct (invalid_version_proposes_null sample_env (js "not-a-version"))
    as [H1 [H2 _]]; [reflexivity|].
  split; [exact H1 | exact H2].
Defined.

(** C2 as stated fails: for the version [not-a-version], which does not
    parse, the five candidates are produced, all [null], and the prompt is
    reached with them; no error has been thrown by then. *)
Lemma invalid_version_proposes_null_counterexample :
  Semver.parse (js "not-a-version") = None
  /\ proposeNextVersions (js "not-a-version") = no_candidates
  /\ exists rest,
       trace (create_try live
                (scripted (js "not-a-version") sample_changelog []
                   sample_commits [origin] true (Resolved tt)))
       = GitStatus :: FsReadFile (js "./version.txt")
         :: PromptList [None; None; None; None; None] :: rest.
Proof.
  split; [reflexivity|]. split; [reflexivity|]. eexists. reflexivity.
Qed.

(** ** Ordering of the proposed versions *)

Import Semver.

Lemma compareNumbers_refl (n : N) : compareNumbers n n = 0.
Proof. unfold compareNumbers. now rewrite N.eqb_refl. Qed.

Lemma compareNumbers_succ (n : N) : compareNumbers (n + 1) n = 1.
Proof.
  unfold compareNumbers.
  destruct (N.eqb_spec (n + 1) n); [lia|].
  destruct (N.ltb_spec (n + 1) n); [lia | reflexivity].
Qed.

Lemma compareMain_same (a b : SemVer) :
  major a = major b -> minor a = minor b -> patch a = patch b ->
  compareMain a b = 0.
Proof.
  intros H1 H2 H3. unfold compareMain. rewrite H1, H2, H3.
  now rewrite !compareNumbers_refl.
Qed.

Lemma identifier_eqb_refl (i : identifier) : identifier_eqb i i = true.
Proof. destruct i; cbn; [apply N.eqb_refl | apply jsstring_eqb_refl]. Qed.

(** A release exceeds the prereleases of the same version. *)
Lemma release_exceeds_prerelease (a b : SemVer) :
  major a = major b -> minor a = minor b -> patch a = patch b ->
  prerelease a = [] -> prerelease b <> [] -> gt a b = true.
Proof.
  intros H1 H2 H3 Ha Hb. unfold gt, compare.
  rewrite (compareMain_same _ _ H1 H2 H3). unfold or_else, comparePre.
  rewrite Ha. destruct (prerelease b); [contradiction | reflexivity].
Qed.

Lemma gt_main (a b : SemVer) : compareMain a b = 1 -> gt a b = true.
Proof. intros H. unfold gt, compare, or_else. now rewrite H. Qed.

Lemma compareMain_major (a b : SemVer) :
  major a = (major b + 1)%N -> compareMain a b = 1.
Proof.
  intros H. unfold compareMain. now rewrite H, compareNumbers_succ.
Qed.

Lemma compareMain_minor (a b : SemVer) :
  major a = major b -> minor a = (minor b + 1)%N -> compareMain a b = 1.
Proof.
  intros H1 H2. unfold compareMain.
  now rewrite H1, H2, compareNumbers_refl, compareNumbers_succ.
Qed.

Lemma compareMain_patch (a b : SemVer) :
  major a = major b -> minor a = minor b -> patch a = (patch b + 1)%N ->
  compareMain a b = 1.
Proof.
  intros H1 H2 H3. unfold compareMain.
  now rewrite H1, H2, H3, !compareNumbers_refl, compareNumbers_succ.
Qed.

Lemma gt_patch (v : SemVer) : gt (SemVer_inc v Rpatch None) v = true.
Proof.
  destruct (prerelease v) as [|i pre] eqn:Hp.
  - apply gt_main, compareMain_patch;
      unfold SemVer_inc; rewrite Hp; reflexivity.
  - apply release_exceeds_prerelease;
      unfold SemVer_inc; rewrite ?Hp; cbn; congruence.
Qed.

Lemma gt_minor (v : SemVer) : gt (SemVer_inc v Rminor None) v = true.
Proof.
  destruct (prerelease v) as [|i pre] eqn:Hp.
  - apply gt_main, compareMain_minor;
      unfold SemVer_inc; rewrite Hp; cbn [major minor];
      [reflexivity | now rewrite orb_true_r].
  - destruct (N.eqb_spec (patch v) 0) as [H0 | H0].
    + apply release_exceeds_prerelease;
        unfold SemVer_inc; rewrite ?Hp; cbn [major minor patch prerelease];
        try congruence.
      destruct (N.eqb_spec (patch v) 0); [reflexivity | contradiction].
    + apply gt_main, compareMain_minor;
        unfold SemVer_inc; cbn [major minor]; [reflexivity|].
      destruct (N.eqb_spec (patch v) 0); [contradiction | reflexivity].
Qed.

Lemma gt_major (v : SemVer) : gt (SemVer_inc v Rmajor None) v = true.
Proof.
  destruct (prerelease v) as [|i pre] eqn:Hp.
  - apply gt_main, compareMain_major.
    unfold SemVer_inc; rewrite Hp; cbn [major]. now rewrite !orb_true_r.
  - destruct (N.eqb_spec (minor v) 0) as [H0 | H0];
      [destruct (N.eqb_spec (patch v) 0) as [H1 | H1]|].
    + apply release_exceeds_prerelease;
        unfold SemVer_inc; rewrite ?Hp; cbn [major minor patch prerelease];
        try congruence.
      destruct (N.eqb_spec (minor v) 0); [|contradiction].
      destruct (N.eqb_spec (patch v) 0); [reflexivity | contradiction].
    + apply gt_main, compareMain_major.
      unfold SemVer_inc; cbn [major].
      destruct (N.eqb_spec (patch v) 0); [contradiction|].
      now rewrite orb_true_r.
    + apply gt_main, compareMain_major.
      unfold SemVer_inc; cbn [major].
      destruct (N.eqb_spec (minor v) 0); [contradiction | reflexivity].
Qed.

(** From a release, the prerelease candidate is a prerelease of the next
    patch version. *)
Lemma gt_prerelease_of_release (v : SemVer) (id : option jsstring) :
  prerelease v = [] -> gt (SemVer_inc v Rprerelease id) v = true.
Proof.
  intros Hp. apply gt_main, compareMain_patch;
    unfold SemVer_inc; rewrite Hp; reflexivity.
Qed.

Lemma bump_first_spec (l l' : list identifier) :
  bump_first l = Some l' ->
  exists a n b, l = a ++ IdNum n :: b /\ l' = a ++ IdNum (n + 1) :: b.
Proof.
  revert l'; induction l as [|x l IH]; intros l' H; [discriminate|].
  destruct x as [n | s]; cbn in H.
  - injection H as <-. now exists [], n, l.
  - destruct (bump_first l) as [p|]; [|discriminate].
    injection H as <-.
    destruct (IH p eq_refl) as [a [n [b [-> ->]]]].
    now exists (IdStr s :: a), n, b.
Qed.

Lemma bump_first_none (l : list identifier) (n : N) :
  bump_first l = None -> ~ In (IdNum n) l.
Proof.
  induction l as [|x l IH]; intros H Hin; [contradiction|].
  destruct x as [m | s]; cbn in H; [discriminate|].
  destruct (bump_first l); [discriminate|].
  destruct Hin as [Hin | Hin]; [discriminate | now apply IH].
Qed.

Lemma bump_last_spec (l l' : list identifier) :
  bump_last l = Some l' ->
  exists a n b, l = a ++ IdNum n :: b /\ l' = a ++ IdNum (n + 1) :: b.
Proof.
  unfold bump_last. intros H.
  destruct (bump_first (rev l)) as [p|] eqn:Hp; [|discriminate].
  injection H as <-.
  destruct (bump_first_spec _ _ Hp) as [a [n [b [Hl ->]]]].
  exists (rev b), n, (rev a). split.
  - rewrite <- (rev_involutive l), Hl, rev_app_distr. cbn.
    now rewrite <- app_assoc.
  - rewrite rev_app_distr. cbn. now rewrite <- app_assoc.
Qed.

Lemma bump_last_none (l : list identifier) (n : N) :
  bump_last l = None -> ~ In (IdNum n) l.
Proof.
  unfold bump_last. intros H Hin.
  destruct (bump_first (rev l)) as [p|] eqn:Hp; [discriminate|].
  apply (bump_first_none _ n Hp). now apply in_rev in Hin.
Qed.

(** Incrementing one number of the prerelease identifiers gives a greater
    prerelease. *)
Lemma comparePre_loop_bump (a b : list identifier) (n : N) :
  comparePre_loop (a ++ IdNum (n + 1) :: b) (a ++ IdNum n :: b) = 1.
Proof.
  induction a as [|x a IH]; cbn [app comparePre_loop].
  - cbn [identifier_eqb].
    destruct (N.eqb_spec (n + 1) n); [lia|].
    unfold compareIdentifiers.
    cbn [identifier_numeric identifier_value andb].
    destruct (N.eqb_spec (n + 1) n); [lia|].
    destruct (N.ltb_spec (n + 1) n); [lia | reflexivity].
  - now rewrite identifier_eqb_refl.
Qed.

Lemma compareIdentifiers_tag (id : jsstring) :
  numeric id = false -> compareIdentifiers (IdStr id) (IdStr id) = 0.
Proof.
  intros H. unfold compareIdentifiers. cbn [identifier_numeric].
  rewrite H. cbn [andb]. now rewrite identifier_eqb_refl.
Qed.

(** From a prerelease whose identifiers start with the tag asked for and
    a number, the prerelease candidate is the same version with a number
    incremented. *)
Lemma gt_prerelease_same_tag (v : SemVer) (id : jsstring) (n : N)
    (rest : list identifier) :
  prerelease v = IdStr id :: IdNum n :: rest ->
  id <> [] -> numeric id = false ->
  gt (SemVer_inc v Rprerelease (Some id)) v = true.
Proof.
  intros Hp Hid Hnum.
  assert (Hinc : exists a m b,
             prerelease v = a ++ IdNum m :: b
             /\ inc_pre (prerelease v) (Some id) = a ++ IdNum (m + 1) :: b).
  { rewrite Hp. unfold inc_pre.
    destruct (bump_last (IdStr id :: IdNum n :: rest)) as [p|] eqn:Hb.
    - destruct (bump_last_spec _ _ Hb) as [a [m [b [Hl ->]]]].
      exists a, m, b. split; [exact Hl|].
      destruct id as [|c id']; [contradiction|].
      destruct a as [|x a]; [discriminate Hl|].
      injection Hl as Hx Hl. subst x. cbn [app].
      rewrite (compareIdentifiers_tag _ Hnum). cbn [Z.eqb].
      destruct a as [|y a]; cbn [app nth_error isNaN]; [reflexivity|].
      injection Hl as Hy _. subst y. reflexivity.
    - exfalso. apply (bump_last_none _ n Hb). right. now left. }
  destruct Hinc as [a [m [b [Hl Hi]]]].
  unfold gt, compare.
  rewrite compareMain_same;
    [| unfold SemVer_inc; rewrite Hp; reflexivity ..].
  unfold or_else, comparePre. cbn [Z.eqb].
  assert (Hpre : prerelease (SemVer_inc v Rprerelease (Some id))
                 = inc_pre (prerelease v) (Some id)).
  { unfold SemVer_inc. destruct (prerelease v) eqn:Hv; [discriminate Hp|].
    cbn [List.length Nat.eqb prerelease]. now rewrite Hv. }
  rewrite Hpre, Hi, Hl.
  pose proof (comparePre_loop_bump a b m) as Hc.
  destruct a; cbn [app] in *; now rewrite Hc.
Qed.

(** C9 (amended): for every valid version, with the candidates compared
    as the versions the incrementer builds, the patch, minor and major
    candidates exceed it; the alpha and beta prerelease candidates exceed
    it when it is a release, and when its prerelease identifiers start
    with the same tag followed by a number. *)
Theorem proposed_versions_exceed (V : jsstring) (v : SemVer) :
  parse V = Some v ->
  let next r id := SemVer_inc v r id in
  proposeNextVersions V
  = {| nextAlpha := Some (format (next Rprerelease (Some alpha)));
       nextBeta := Some (format (next Rprerelease (Some beta)));
       nextPatch := Some (format (next Rpatch None));
       nextFeature := Some (format (next Rminor None));
       nextMajor := Some (format (next Rmajor None)) |}
  /\ gt (next Rpatch None) v = true
  /\ gt (next Rminor None) v = true
  /\ gt (next Rmajor None) v = true
  /\ (prerelease v = [] ->
      gt (next Rprerelease (Some alpha)) v = true
      /\ gt (next Rprerelease (Some beta)) v = true)
  /\ (forall n rest, prerelease v = IdStr alpha :: IdNum n :: rest ->
      gt (next Rprerelease (Some alpha)) v = true)
  /\ (forall n rest, prerelease v = IdStr beta :: IdNum n :: rest ->
      gt (next Rprerelease (Some beta)) v = true).
Proof.
  intros Hp next. split; [|split; [|split; [|split; [|split; [|split]]]]].
  - unfold proposeNextVersions, inc. rewrite Hp. reflexivity.
  - apply gt_patch.
  - apply gt_minor.
  - apply gt_major.
  - intros H. split; now apply gt_prerelease_of_release.
  - intros n rest H.
    apply (gt_prerelease_same_tag v alpha n rest H);
      [discriminate | reflexivity].
  - intros n rest H.
    apply (gt_prerelease_same_tag v beta n rest H);
      [discriminate | reflexivity].
Qed.

Lemma proposed_versions_exceed_witness :
  Object_values (proposeNextVersions (js "1.2.3"))
  = [Some (js "1.2.4-alpha.0"); Some (js "1.2.4-beta.0");
     Some (js "1.2.4"); Some (js "1.3.0"); Some (js "2.0.0")]
  /\ gt (mkSemVer 1 2 4 [] []) (mkSemVer 1 2 3 [] []) = true.
Proof.
  destruct (proposed_versions_exceed (js "1.2.3") (mkSemVer 1 2 3 [] []))
    as [H1 [H2 _]]; [reflexivity|].
  split; [now rewrite H1 | exact H2].
Defined.

(** C9 as stated fails: from the valid version 1.2.3-beta.1 the alpha
    candidate is 1.2.3-alpha.0, which is below it. *)
Lemma proposed_versions_exceed_counterexample :
  nextAlpha (proposeNextVersions (js "1.2.3-beta.1"))
  = Some (js "1.2.3-alpha.0")
  /\ exists a v,
       parse (js "1.2.3-alpha.0") = Some a
       /\ parse (js "1.2.3-beta.1") = Some v
       /\ compare a v = -1
       /\ gt a v = false.
Proof.
  split; [reflexivity|].
  exists (mkSemVer 1 2 3 [IdStr alpha; IdNum 0] []),
         (mkSemVer 1 2 3 [IdStr beta; IdNum 1] []).
  repeat split.
Qed.

(** * Further properties *)

(** ** The changelog merge, for any content *)

(** The merge splits the content at some index of at least 1 and puts the
    note there. *)
Lemma changelogNew_split (content note : jsstring) :
  exists k, (1 <= k)%nat
    /\ changelogNew content note
       = firstn k content ++ note ++ skipn k content.
Proof.
  destruct (indexOf_from_spec blank_line content 0)
    as [[_ Hnone] | [i [_ Hi]]].
  - exists 1%nat. split; [lia|]. now apply changelogNew_missing.
  - exists (i + 2)%nat. split; [lia|]. now apply changelogNew_found.
Qed.

(** X3: whatever the changelog and the note hold, the merged document is
    the changelog with the note put in at one place: taking the note out
    again gives the changelog back, so no code unit of it is lost, altered
    or reordered, and the lengths add up. *)
Theorem changelog_merge_only_inserts (content note : jsstring) :
  exists before after,
    content = before ++ after
    /\ changelogNew content note = before ++ note ++ after
    /\ List.length (changelogNew content note)
       = (List.length content + List.length note)%nat.
Proof.
  destruct (changelogNew_split content note) as [k [_ Hk]].
  exists (firstn k content), (skipn k content).
  split; [symmetry; apply firstn_skipn|]. split; [exact Hk|].
  rewrite Hk, !length_app.
  rewrite <- (firstn_skipn k content) at 3. rewrite length_app. lia.
Qed.

(** X4: an empty note leaves the changelog as it is: outside dry-run
    [updateChangeLog] writes back exactly what it read. *)
Theorem updateChangeLog_empty_note this E (content : jsstring) :
  dry_run this = false ->
  readFile E (file_changelog this) = Resolved content ->
  trace (updateChangeLog this E [])
  = [FsReadFile (file_changelog this);
     FsWriteFile (file_changelog this) (Some content)].
Proof.
  intros Hd Hr. rewrite (updateChangeLog_live _ _ _ _ Hd Hr).
  destruct (changelogNew_split content []) as [k [_ Hk]].
  rewrite Hk. cbn [app]. rewrite firstn_skipn. reflexivity.
Qed.

Lemma updateChangeLog_empty_note_witness :
  trace (updateChangeLog live sample_env [])
  = [FsReadFile (js "./changes.md");
     FsWriteFile (js "./changes.md") (Some sample_changelog)].
Proof.
  apply (updateChangeLog_empty_note live sample_env sample_changelog);
    reflexivity.
Defined.

(** X5: two releases in a row on a changelog that holds a blank-line
    separator: the second note comes right after the title block, before
    the first one, and the old entries follow both. *)
Theorem changelog_newest_first (content note1 note2 : jsstring) :
  (exists i, occurs_at blank_line content i) ->
  exists t r,
    title_block content t /\ entries content r
    /\ changelogNew (changelogNew content note1) note2
       = t ++ note2 ++ note1 ++ r.
Proof.
  intros [i0 Hocc].
  destruct (occurs_first _ _ _ Hocc) as [i Hi].
  destruct (merge_shape content note1 i Hi) as [H1 [H2 [H3 H4]]].
  exists (firstn (i + 2) content), (skipn (i + 2) content).
  split; [exact H1|]. split; [exact H2|].
  rewrite (changelogNew_found _ note1 _ Hi).
  destruct H3 as [j [Hj Ht]]. destruct H4 as [j' [Hj' Hr]].
  rewrite (first_occurrence_unique _ _ _ _ Hj' Hj) in Hr.
  rewrite (changelogNew_found _ note2 _ Hj), <- Ht, <- Hr.
  reflexivity.
Qed.

Lemma changelog_newest_first_witness :
  exists t r,
    title_block sample_changelog t /\ entries sample_changelog r
    /\ changelogNew (changelogNew sample_changelog (js "A")) (js "B")
       = t ++ js "B" ++ js "A" ++ r.
Proof.
  apply (changelog_newest_first sample_changelog (js "A") (js "B")).
  exists 7%nat, (js "Old entry" ++ [LF]). reflexivity.
Defined.

(** X6: in dry-run [updateChangeLog] prints, after its header, the first
    1000 code units of the changelog as read, the whole changelog when it
    is shorter, and makes no other call. *)
Theorem updateChangeLog_preview this E (content : jsstring) :
  dry_run this = true ->
  readFile E (file_changelog this) = Resolved content ->
  forall note,
    updateChangeLog this E note
    = ([FsReadFile (file_changelog this);
        ConsoleLog (js "Dry run: changelog preview: "
                    ++ file_changelog this ++ js ":" ++ [LF]
                    ++ firstn 1000 content)],
       Returned tt)
    /\ (List.length (firstn 1000 content) <= 1000)%nat
    /\ ((List.length content <= 1000)%nat -> firstn 1000 content = content).
Proof.
  intros Hd Hr note. split; [|split].
  - unfold updateChangeLog. rewrite Hd, Hr.
    change 1000 with (Z.of_nat 1000). rewrite bind_call_Resolved.
    rewrite slice_head. reflexivity.
  - apply firstn_le_length.
  - intros H. now apply firstn_all2.
Qed.

Lemma updateChangeLog_preview_witness :
  updateChangeLog dry sample_env sample_note
  = ([FsReadFile (js "./changes.md");
      ConsoleLog (js "Dry run: changelog preview: ./changes.md:" ++ [LF]
                  ++ sample_changelog)],
     Returned tt).
Proof.
  destruct (updateChangeLog_preview dry sample_env sample_changelog
              eq_refl eq_refl sample_note) as [H _].
  rewrite H. reflexivity.
Defined.

(** ** Reading the version *)

Lemma trimStart_spec (s : jsstring) :
  exists p, s = p ++ trimStart s /\ blank p = true
            /\ match trimStart s with
               | [] => True
               | c :: _ => isWhiteSpace c = false
               end.
Proof.
  induction s as [|c s IH]; [now exists []|].
  cbn [trimStart]. destruct (isWhiteSpace c) eqn:Hc.
  - destruct IH as [p [Hs [Hp Hh]]]. exists (c :: p).
    split; [cbn; now rewrite <- Hs|]. split; [|exact Hh].
    unfold blank in *. cbn [forallb]. now rewrite Hc, Hp.
  - exists []. split; [reflexivity|]. split; [reflexivity | exact Hc].
Qed.

Lemma trimStart_fixed (c : code_unit) (s : jsstring) :
  isWhiteSpace c = false -> trimStart (c :: s) = c :: s.
Proof. intros H. cbn [trimStart]. now rewrite H. Qed.

Lemma blank_rev (s : jsstring) : blank s = true -> blank (rev s) = true.
Proof.
  unfold blank. rewrite !forallb_forall. intros H x Hx.
  apply H. now apply in_rev.
Qed.

(** [trim] removes a run of white space at each end and nothing else. *)
Lemma trim_spec (s : jsstring) :
  exists p q, s = p ++ trim s ++ q /\ blank p = true /\ blank q = true
              /\ trimmed (trim s) = true.
Proof.
  unfold trim.
  destruct (trimStart_spec s) as [p [Hs [Hp Hh]]].
  destruct (trimStart_spec (rev (trimStart s))) as [q [Hr [Hq Hh']]].
  set (u := trimStart s) in *. set (w := trimStart (rev u)) in *.
  exists p, (rev q). split; [|split; [exact Hp|split; [now apply blank_rev|]]].
  - rewrite <- rev_app_distr, <- Hr, rev_involutive. exact Hs.
  - destruct w as [|c w'] eqn:Hw; [reflexivity|].
    assert (Hu : u = rev w' ++ c :: rev q).
    { rewrite <- (rev_involutive u), Hr, rev_app_distr. cbn.
      now rewrite <- app_assoc. }
    cbn [rev]. unfold trimmed.
    destruct (rev w' ++ [c]) as [|d l] eqn:Hl;
      [destruct (rev w'); discriminate|].
    assert (Hlast : last (d :: l) d = c).
    { rewrite <- Hl. apply last_last. }
    rewrite Hlast, Hh'. rewrite andb_true_r.
    assert (Hd : isWhiteSpace d = false).
    { destruct (rev w') as [|x l'] eqn:Hx.
      - cbn in Hl. injection Hl as <- _. exact Hh'.
      - cbn in Hl. injection Hl as <- _. rewrite Hu in Hh. exact Hh. }
    now rewrite Hd.
Qed.

Lemma trim_trimmed (s : jsstring) : trimmed s = true -> trim s = s.
Proof.
  unfold trimmed, trim. destruct s as [|c s]; [reflexivity|].
  intros H. apply andb_true_iff in H. destruct H as [Hc Hl].
  apply negb_true_iff in Hc. apply negb_true_iff in Hl.
  rewrite (trimStart_fixed _ _ Hc).
  destruct (rev (c :: s)) as [|d l] eqn:Hr.
  - apply (f_equal (@rev _)) in Hr. rewrite rev_involutive in Hr.
    discriminate Hr.
  - assert (Hd : d = last (c :: s) c).
    { rewrite <- (rev_involutive (c :: s)), Hr. cbn [rev].
      now rewrite last_last. }
    rewrite Hd, (trimStart_fixed _ _ Hl), <- Hd, <- Hr.
    apply rev_involutive.
Qed.

(** X7: when the version file is read, [getVersionFromFile] returns its
    content without the white space and line breaks at either end and
    with everything between them kept; the result neither starts nor ends
    with white space, and trimming it again changes nothing. *)
Theorem getVersionFromFile_trims E (filePath data : jsstring) :
  readFile E filePath = Resolved data ->
  exists v p q,
    getVersionFromFile E filePath = ([FsReadFile filePath], Returned v)
    /\ data = p ++ v ++ q /\ blank p = true /\ blank q = true
    /\ trimmed v = true /\ trim v = v.
Proof.
  intros Hr. destruct (trim_spec data) as [p [q [Hd [Hp [Hq Ht]]]]].
  exists (trim data), p, q. split.
  - unfold getVersionFromFile. rewrite Hr. reflexivity.
  - repeat split; try assumption. now apply trim_trimmed.
Qed.

Lemma getVersionFromFile_trims_witness :
  exists v p q,
    getVersionFromFile sample_env (js "./version.txt")
    = ([FsReadFile (js "./version.txt")], Returned v)
    /\ js "1.2.3" ++ [LF] = p ++ v ++ q /\ blank p = true /\ blank q = true
    /\ trimmed v = true /\ trim v = v.
Proof.
  apply (getVersionFromFile_trims sample_env (js "./version.txt")
           (js "1.2.3" ++ [LF])).
  reflexivity.
Defined.

(** ** How [create] ends *)

Lemma no_exit_bind {A B} (m : M A) (f : A -> M B) :
  no_exit m -> (forall a, no_exit (f a)) -> no_exit (bind m f).
Proof.
  intros Hm Hf c. rewrite result_bind.
  destruct (result m) as [a | e | c'] eqn:Hr.
  - apply Hf.
  - discriminate.
  - exfalso. exact (Hm c' Hr).
Qed.

Lemma no_exit_call {A} (e : event) (a : answer A) : no_exit (call e a).
Proof. intros c. destruct a; discriminate. Qed.

Lemma no_exit_emit (e : event) : no_exit (emit e).
Proof. intros c. discriminate. Qed.

Lemma no_exit_ret {A} (a : A) : no_exit (ret a).
Proof. intros c. discriminate. Qed.

Lemma no_exit_throw {A} (e : error) : no_exit (@throw A e).
Proof. intros c. discriminate. Qed.

(** One step of a proof that a method does not end the process. *)
Ltac no_exit_step :=
  first
    [ apply no_exit_bind; [| intros ?]
    | apply no_exit_call
    | apply no_exit_emit
    | apply no_exit_ret
    | apply no_exit_throw
    | match goal with
      | |- no_exit (if ?b then _ else _) => destruct b
      end ].

Lemma pushEach_no_exit this E (remotesSelected : list jsstring)
    (branch : jsval) :
  no_exit (pushEach this E remotesSelected branch).
Proof.
  induction remotesSelected as [|remote rest IH]; cbn [pushEach].
  - apply no_exit_ret.
  - repeat no_exit_step; exact IH.
Qed.

(** Only the precondition check can end the process. *)
Lemma create_try_exit this E (c : Z) :
  result (create_try this E) = Exited c ->
  result (checkForUncommittedChanges this E) = Exited c.
Proof.
  unfold create_try. rewrite result_bind.
  destruct (result (checkForUncommittedChanges this E)) as [[] | e | c'];
    [| discriminate | trivial].
  intros H. exfalso. revert c H.
  change (no_exit
    (currentVersion <- getVersionFromFile E (file_version this) ;;
     newVersion <- promptNewVersion E currentVersion ;;
     messagesString <- getFormattedVersionMessage E newVersion ;;
     messagesStringFinal <- promptEditMessages E messagesString ;;
     updateChangeLog this E messagesStringFinal ;;;
     saveVersionToFile this E newVersion ;;;
     commitAndTagVersion this E newVersion ;;;
     pushToRemote this E ;;;
     emit (ConsoleLog (js "Done!")))).
  unfold getVersionFromFile, promptNewVersion, getFormattedVersionMessage,
    promptEditMessages, updateChangeLog, saveVersionToFile,
    commitAndTagVersion, pushToRemote.
  repeat no_exit_step; apply pushEach_no_exit.
Qed.

Lemma checkForUncommittedChanges_exit this E (c : Z) :
  result (checkForUncommittedChanges this E) = Exited c ->
  c = 1 /\ dry_run this = false
  /\ exists st, status_precheck E = Resolved st /\ Git.files st <> []
     /\ checkForUncommittedChanges this E
        = ([GitStatus; ConsoleError uncommitted_message None; ProcessExit 1],
           Exited 1).
Proof.
  unfold checkForUncommittedChanges.
  destruct (status_precheck E) as [st | e]; [|discriminate].
  rewrite bind_call_Resolved, result_prepend.
  destruct (Git.files st) as [|f fs] eqn:Hf; [discriminate|].
  cbn [List.length Nat.eqb negb].
  destruct (dry_run this); [discriminate|].
  intros H. injection H as <-.
  split; [reflexivity|]. split; [reflexivity|].
  exists st. split; [reflexivity|]. split; [now rewrite Hf | reflexivity].
Qed.

(** X8: [create] ends the process only through the precondition check:
    when it does, the exit status is 1, [dry_run] is off, the status listed
    a changed file, and the run is the status query, the error message and
    the exit. *)
Theorem create_exit_only_uncommitted this E (c : Z) :
  result (create this E) = Exited c ->
  c = 1 /\ dry_run this = false
  /\ (exists st, status_precheck E = Resolved st /\ Git.files st <> [])
  /\ trace (create this E)
     = [GitStatus; ConsoleError uncommitted_message None; ProcessExit 1].
Proof.
  intros H. unfold create in *. rewrite result_try_catch in H.
  assert (Ht : result (create_try this E) = Exited c).
  { destruct (result (create_try this E)) as [a | e | c'] eqn:Hr;
      [discriminate H | | exact H].
    exfalso. unfold create_catch, autoStash in H.
    destruct (dry_run this); [discriminate H|].
    destruct (stash E) as [[] | e0]; discriminate H. }
  destruct (checkForUncommittedChanges_exit this E c
              (create_try_exit this E c Ht))
    as [Hc [Hd [st [Hs [Hf Heq]]]]].
  split; [exact Hc|]. split; [exact Hd|]. split; [now exists st|].
  rewrite trace_try_catch, Ht, app_nil_r.
  unfold create_try. rewrite Heq. reflexivity.
Qed.

Lemma create_exit_only_uncommitted_witness :
  trace (create live
           (scripted (js "1.2.3") sample_changelog [js "README.md"]
              sample_commits [origin] true (Resolved tt)))
  = [GitStatus; ConsoleError uncommitted_message None; ProcessExit 1].
Proof.
  apply (create_exit_only_uncommitted live
           (scripted (js "1.2.3") sample_changelog [js "README.md"]
              sample_commits [origin] true (Resolved tt)) 1).
  reflexivity.
Defined.

(** X9: [create] throws only when, outside dry-run, a step has thrown and
    the stash of the handler is rejected; what it throws is then the error
    of the stash, not the error of the step. *)
Theorem create_throws_only_stash_error this E (e : error) :
  result (create this E) = Thrown e ->
  dry_run this = false /\ stash E = Rejected e
  /\ exists e0, result (create_try this E) = Thrown e0.
Proof.
  intros H. unfold create in H. rewrite result_try_catch in H.
  destruct (result (create_try this E)) as [[] | e0 | c] eqn:Hr;
    [discriminate H | | discriminate H].
  unfold create_catch, autoStash in H.
  destruct (dry_run this); [discriminate H|].
  destruct (stash E) as [[] | e1]; [discriminate H|].
  injection H as ->. split; [reflexivity|]. split; [reflexivity|].
  now exists e0.
Qed.

Lemma create_throws_only_stash_error_witness :
  dry_run live = false
  /\ stash no_commit_env = Rejected no_initial_commit.
Proof.
  destruct (create_throws_only_stash_error live no_commit_env
              no_initial_commit eq_refl) as [H1 [H2 _]].
  split; [exact H1 | exact H2].
Defined.

(** X10: in dry-run [create] always returns: it neither throws nor ends
    the process, whatever the collaborators answer. *)
Theorem create_dry_run_returns (fv fc : jsstring) (E : env) :
  result (create {| file_version := fv; file_changelog := fc;
                    dry_run := true |} E)
  = Returned tt.
Proof.
  set (this := {| file_version := fv; file_changelog := fc;
                  dry_run := true |}).
  unfold create. rewrite result_try_catch.
  destruct (result (create_try this E)) as [[] | e | c] eqn:Hr.
  - reflexivity.
  - reflexivity.
  - destruct (checkForUncommittedChanges_exit this E c
                (create_try_exit this E c Hr)) as [_ [Hd _]].
    discriminate Hd.
Qed.

(** ** Commit, tag and push *)

(** X11: outside dry-run [commitAndTagVersion] stops at the first call that
    is rejected and throws its error: a rejected add is followed by no
    commit and no tag, a rejected commit by no tag; it returns exactly when
    add, commit and tag all succeed. *)
Theorem commitAndTagVersion_fail_fast this E (version : jsval) :
  dry_run this = false ->
  let message := js "version " ++ toStr version in
  (forall e, add E = Rejected e ->
     commitAndTagVersion this E version = ([GitAdd (js ".")], Thrown e))
  /\ (forall e, add E = Resolved tt -> commit E message = Rejected e ->
      commitAndTagVersion this E version
      = ([GitAdd (js "."); GitCommit message], Thrown e))
  /\ (result (commitAndTagVersion this E version) = Returned tt
      <-> add E = Resolved tt /\ commit E message = Resolved tt
          /\ tag E version = Resolved tt).
Proof.
  intros Hd message. unfold commitAndTagVersion. rewrite Hd. fold message.
  split; [|split].
  - intros e Ha. rewrite Ha. reflexivity.
  - intros e Ha Hc. rewrite Ha, Hc. reflexivity.
  - destruct (add E) as [[] | e1];
      [|split; [discriminate | intros [H _]; discriminate H]].
    destruct (commit E message) as [[] | e2];
      [|split; [discriminate | intros [_ [H _]]; discriminate H]].
    destruct (tag E version) as [[] | e3];
      [|split; [discriminate | intros [_ [_ H]]; discriminate H]].
    split; [now intros _ | reflexivity].
Qed.

Lemma commitAndTagVersion_fail_fast_witness :
  commitAndTagVersion live locked_index_env (Some (js "1.2.4"))
  = ([GitAdd (js ".")], Thrown index_locked).
Proof.
  destruct (commitAndTagVersion_fail_fast live locked_index_env
              (Some (js "1.2.4")) eq_refl) as [H _].
  apply H. reflexivity.
Defined.

Lemma pushEach_cons this E (remote : jsstring) (rest : list jsstring)
    (branch : jsval) :
  dry_run this = false ->
  pushEach this E (remote :: rest) branch
  = call (GitPush remote branch) (push E remote branch) ;;;
    emit (ConsoleLog (js "Pushed to remote " ++ remote
                      ++ js " on branch " ++ toStr branch
                      ++ js " successfully.")) ;;;
    pushEach this E rest branch.
Proof.
  intros Hd. cbn [pushEach]. rewrite Hd. now rewrite bind_assoc.
Qed.

(** Outside dry-run the loop pushes an initial segment of the selected
    remotes. *)
Lemma pushEach_mutations this E (sel : list jsstring) (branch : jsval) :
  dry_run this = false ->
  exists n,
    filter mutating (trace (pushEach this E sel branch))
    = pushed branch (firstn n sel).
Proof.
  intros Hd. induction sel as [|r sel [n IH]]; [now exists 0%nat|].
  rewrite (pushEach_cons _ _ _ _ _ Hd).
  destruct (push E r branch) as [[] | e].
  - exists (S n). rewrite bind_call_Resolved, bind_emit, prepend_prepend.
    rewrite trace_prepend, filter_mutating_app, IH. reflexivity.
  - exists 1%nat. rewrite bind_call_Rejected. reflexivity.
Qed.

Lemma pushEach_member this E (sel : list jsstring) (branch : jsval)
    (r : jsstring) (b : jsval) :
  In (GitPush r b) (trace (pushEach this E sel branch)) ->
  In r sel /\ b = branch /\ dry_run this = false.
Proof.
  induction sel as [|x sel IH]; cbn [pushEach]; [intros []|].
  destruct (dry_run this) eqn:Hd.
  - rewrite bind_emit, trace_prepend. intros [H | H]; [discriminate H|].
    destruct (IH H) as [H1 [H2 H3]]. discriminate H3.
  - rewrite bind_assoc. destruct (push E x branch) as [[] | e].
    + rewrite bind_call_Resolved, bind_emit, prepend_prepend, trace_prepend.
      intros [H | [H | H]]; [| discriminate H |].
      * injection H as -> ->. repeat split. now left.
      * destruct (IH H) as [H1 [H2 _]]. repeat split; [now right | exact H2].
    + rewrite bind_call_Rejected. intros [H | []].
      injection H as -> ->. repeat split. now left.
Qed.

(** X12: outside dry-run the push loop takes the selected remotes in
    order and stops at the first push that is rejected, throwing its
    error: the remotes before it have been pushed, the ones after it are
    not tried; when every push succeeds, each selected remote is pushed
    once and the loop returns. *)
Theorem pushEach_stops_at_first_failure this E (sel : list jsstring)
    (branch : jsval) :
  dry_run this = false ->
  (forall done r rest e,
     sel = done ++ r :: rest ->
     Forall (fun x => push E x branch = Resolved tt) done ->
     push E r branch = Rejected e ->
     result (pushEach this E sel branch) = Thrown e
     /\ filter mutating (trace (pushEach this E sel branch))
        = pushed branch (done ++ [r]))
  /\ (Forall (fun x => push E x branch = Resolved tt) sel ->
      result (pushEach this E sel branch) = Returned tt
      /\ filter mutating (trace (pushEach this E sel branch))
         = pushed branch sel).
Proof.
  intros Hd. split.
  - intros done. revert sel.
    induction done as [|x done IH]; intros sel r rest e -> Hok Hr.
    + cbn [app]. rewrite (pushEach_cons _ _ _ _ _ Hd), Hr.
      rewrite bind_call_Rejected. split; reflexivity.
    + cbn [app]. rewrite (pushEach_cons _ _ _ _ _ Hd).
      inversion Hok as [|? ? Hx Hdone]; subst.
      rewrite Hx, bind_call_Resolved, bind_emit, prepend_prepend.
      rewrite result_prepend, trace_prepend, filter_mutating_app.
      destruct (IH (done ++ r :: rest) r rest e eq_refl Hdone Hr)
        as [H1 H2].
      rewrite H1, H2. split; reflexivity.
  - induction sel as [|x sel IH]; intros Hok; [split; reflexivity|].
    rewrite (pushEach_cons _ _ _ _ _ Hd).
    inversion Hok as [|? ? Hx Hsel]; subst.
    rewrite Hx, bind_call_Resolved, bind_emit, prepend_prepend.
    rewrite result_prepend, trace_prepend, filter_mutating_app.
    destruct (IH Hsel) as [H1 H2]. rewrite H1, H2. split; reflexivity.
Qed.

Lemma pushEach_stops_at_first_failure_witness :
  result (pushEach live sample_env [js "origin"; js "mirror"]
            (Some (js "main")))
  = Returned tt
  /\ filter mutating
       (trace (pushEach live sample_env [js "origin"; js "mirror"]
                 (Some (js "main"))))
     = [GitPush (js "origin") (Some (js "main"));
        GitPush (js "mirror") (Some (js "main"))].
Proof.
  destruct (pushEach_stops_at_first_failure live sample_env
              [js "origin"; js "mirror"] (Some (js "main")) eq_refl)
    as [_ H].
  apply H. repeat constructor.
Defined.

(** A push made by [pushToRemote] was confirmed, goes to a remote the
    operator selected and uses the branch the status reported. *)
Lemma pushToRemote_member this E (r : jsstring) (b : jsval) :
  In (GitPush r b) (trace (pushToRemote this E)) ->
  dry_run this = false
  /\ prompt_confirmPush E = Resolved true
  /\ exists st remotes sel,
       status_push E = Resolved st /\ b = Git.current st
       /\ getRemotes E = Resolved remotes
       /\ prompt_remotesSelected E (map Git.name remotes) = Resolved sel
       /\ In r sel.
Proof.
  unfold pushToRemote.
  destruct (status_push E) as [st | e0]; run;
    [| intros Hin; not_in Hin].
  destruct (getRemotes E) as [[|x remotes] | e1]; run;
    try (intros Hin; not_in Hin).
  change (Nat.eqb (List.length (x :: remotes)) 0) with false. cbv iota.
  destruct (prompt_remotesSelected E (map Git.name (x :: remotes)))
    as [sel | e2] eqn:Hsel; run; [| intros Hin; not_in Hin].
  destruct (diff E) as [d | e3]; run; [| intros Hin; not_in Hin].
  destruct (prompt_confirmPush E) as [[|] | e4]; run;
    try (intros Hin; not_in Hin).
  rewrite trace_prepend. intros Hin. apply in_app_or in Hin.
  destruct Hin as [Hin | Hin]; [not_in Hin|].
  destruct (pushEach_member _ _ _ _ _ _ Hin) as [H1 [H2 H3]].
  split; [exact H3|]. split; [reflexivity|].
  exists st, (x :: remotes), sel. repeat split; assumption.
Qed.

(** Outside dry-run the push step makes no mutating call, or the operator
    confirmed and it pushes, on the branch of the status, an initial
    segment of the remotes the operator selected, and nothing else. *)
Lemma pushToRemote_mutations this E :
  dry_run this = false ->
  filter mutating
    (trace (pushToRemote this E ;;; emit (ConsoleLog (js "Done!")))) = []
  \/ exists branch sel n,
       push_answers E branch sel
       /\ filter mutating
            (trace (pushToRemote this E ;;; emit (ConsoleLog (js "Done!"))))
          = pushed branch (firstn n sel).
Proof.
  intros Hd. unfold pushToRemote.
  destruct (status_push E) as [st | e0] eqn:Hst; run; [| now left].
  destruct (getRemotes E) as [[|x remotes] | e1] eqn:Hrem; run;
    try (now left).
  change (Nat.eqb (List.length (x :: remotes)) 0) with false. cbv iota.
  destruct (prompt_remotesSelected E (map Git.name (x :: remotes)))
    as [sel | e2] eqn:Hsel; run; [| now left].
  destruct (diff E) as [d | e3]; run; [| now left].
  destruct (prompt_confirmPush E) as [[|] | e4] eqn:Hc; run;
    try (now left).
  destruct (pushEach_mutations this E sel (Git.current st) Hd) as [n Hn].
  right. exists (Git.current st), sel, n. split.
  - split; [exact Hc|]. exists st, (x :: remotes). now repeat split.
  - rewrite trace_prepend, trace_bind, !filter_mutating_app, Hn.
    destruct (result (pushEach this E sel (Git.current st)));
      cbn; now rewrite app_nil_r.
Qed.

(** The run stopped before the push step, having made an initial segment
    of the mutating calls of the steps before it. *)
Ltac stopped_early :=
  right; unfold is_prefix, prelude_calls; cbn [trace fst filter mutating];
  first
    [ exists [], [], None; eexists; reflexivity
    | eexists _, _, None; eexists; reflexivity
    | do 3 eexists; eexists; reflexivity ].

(** Outside dry-run, either every step before the push succeeded, or the
    run ended there, its mutating calls being an initial segment of the
    two writes, add, commit and tag. *)
Lemma create_try_progress this E :
  dry_run this = false ->
  (exists pre,
     create_try this E
     = prepend pre (pushToRemote this E ;;; emit (ConsoleLog (js "Done!")))
     /\ prelude_live this E pre)
  \/ (exists content note v,
        is_prefix (filter mutating (trace (create_try this E)))
                  (prelude_calls this content note v)).
Proof.
  intros Hd.
  unfold create_try, checkForUncommittedChanges, getVersionFromFile,
    promptNewVersion, getFormattedVersionMessage, promptEditMessages,
    updateChangeLog, saveVersionToFile, commitAndTagVersion.
  rewrite Hd. cbv iota. run.
  repeat lazymatch goal with
         | |- (exists pre, ?m = _ /\ _) \/ _ => advance m
         end.
  all: try solve [stopped_early].
  all: left; eexists; split; [reflexivity|].
  all: unfold prelude_live; do 3 eexists; cbn [filter mutating].
  all: repeat match goal with u : unit |- _ => destruct u end.
  all: repeat split; try reflexivity; eassumption.
Qed.

Lemma prelude_calls_no_push this (content note : jsstring) (v : jsval)
    (r : jsstring) (b : jsval) :
  ~ In (GitPush r b) (prelude_calls this content note v).
Proof.
  unfold prelude_calls. cbn [In]. intuition discriminate.
Qed.

Lemma in_filter_mutating (x : event) (t : list event) :
  In x t -> mutating x = true -> In x (filter mutating t).
Proof. intros H1 H2. apply filter_In. now split. Qed.

Lemma create_catch_no_push this E (e : error) (r : jsstring) (b : jsval) :
  ~ In (GitPush r b) (trace (create_catch this E e)).
Proof.
  unfold create_catch, autoStash.
  destruct (dry_run this); [|destruct (stash E) as [[] | e0]];
    cbn; intuition discriminate.
Qed.

(** X13: [create] pushes to a remote only outside dry-run, only after the
    operator confirmed the push, only to a remote the operator selected in
    the prompt, and on the branch the status of the push step reported. *)
Theorem push_needs_confirmation this E (r : jsstring) (b : jsval) :
  In (GitPush r b) (trace (create this E)) ->
  dry_run this = false
  /\ prompt_confirmPush E = Resolved true
  /\ exists st remotes sel,
       status_push E = Resolved st /\ b = Git.current st
       /\ getRemotes E = Resolved remotes
       /\ prompt_remotesSelected E (map Git.name remotes) = Resolved sel
       /\ In r sel.
Proof.
  intros Hin. unfold create in Hin. rewrite trace_try_catch in Hin.
  apply in_app_or in Hin. destruct Hin as [Hin | Hin].
  2:{ exfalso. destruct (result (create_try this E)) as [a | e | c];
        [contradiction | | contradiction].
      exact (create_catch_no_push this E e r b Hin). }
  destruct (dry_run this) eqn:Hd.
  - exfalso. destruct this as [fv fc d]. cbn in Hd. subst d.
    pose proof (create_try_dry fv fc E) as Hro.
    unfold read_only in Hro. rewrite Forall_forall in Hro.
    specialize (Hro _ Hin). discriminate Hro.
  - enough (Hpush : In (GitPush r b) (trace (pushToRemote this E))).
    { destruct (pushToRemote_member _ _ _ _ Hpush) as [_ [H2 H3]].
      split; [reflexivity|]. split; assumption. }
    destruct (create_try_progress this E Hd)
      as [[pre [Heq Hlive]] | [content [note [v [rest Hp]]]]].
    + rewrite Heq, trace_prepend, trace_bind in Hin.
      apply in_app_or in Hin. destruct Hin as [Hin | Hin].
      * exfalso. destruct Hlive as [content [note [v [Hpre _]]]].
        apply (prelude_calls_no_push this content note v r b).
        unfold prelude_calls. rewrite <- Hpre.
        now apply in_filter_mutating.
      * apply in_app_or in Hin. destruct Hin as [Hin | Hin]; [exact Hin|].
        exfalso. destruct (result (pushToRemote this E));
          cbn in Hin; intuition discriminate.
    + exfalso.
      apply (prelude_calls_no_push this content note v r b).
      rewrite Hp. apply in_or_app. left.
      now apply in_filter_mutating.
Qed.

Lemma push_needs_confirmation_witness :
  dry_run live = false /\ prompt_confirmPush sample_env = Resolved true.
Proof.
  destruct (push_needs_confirmation live sample_env (js "origin")
              (Some (js "main"))) as [H1 [H2 _]];
    [vm_compute; tauto|].
  split; [exact H1 | exact H2].
Defined.

(** The run stopped before the push step: it made no mutating call, or
    an initial segment of the calls made from the answers it had. *)
Ltac stopped_segment :=
  right; cbn [trace fst filter mutating];
  first
    [ left; reflexivity
    | right; do 3 eexists; split;
      [ unfold prelude_answers; split; [eassumption|];
        split; eexists; eassumption
      | unfold is_prefix, prelude_calls; eexists; reflexivity ] ].

(** Outside dry-run, either every step before the push succeeded, its
    mutating calls being the two writes, add, commit and tag made from the
    answers of the environment, or the run ended there with no mutating
    call or an initial segment of those. *)
Lemma create_try_segments this E :
  dry_run this = false ->
  (exists pre,
     create_try this E
     = prepend pre (pushToRemote this E ;;; emit (ConsoleLog (js "Done!")))
     /\ exists content note v,
          prelude_answers this E content note v
          /\ filter mutating pre = prelude_calls this content note v)
  \/ (filter mutating (trace (create_try this E)) = []
      \/ exists content note v,
           prelude_answers this E content note v
           /\ is_prefix (filter mutating (trace (create_try this E)))
                        (prelude_calls this content note v)).
Proof.
  intros Hd.
  unfold create_try, checkForUncommittedChanges, getVersionFromFile,
    promptNewVersion, getFormattedVersionMessage, promptEditMessages,
    updateChangeLog, saveVersionToFile, commitAndTagVersion.
  rewrite Hd. cbv iota. run.
  repeat lazymatch goal with
         | |- (exists pre, ?m = _ /\ _) \/ _ => advance m
         end.
  all: try solve [stopped_segment].
  all: left; eexists; split; [reflexivity|].
  all: do 3 eexists; split;
         [ unfold prelude_answers; split; [eassumption|];
           split; eexists; eassumption
         | reflexivity ].
Qed.

(** X14: outside dry-run the mutating calls of a run of [create] come in
    one fixed order, made from the answers of the environment: the write
    of the changelog read from disk with the note of the editor inserted,
    the write of the version [v] chosen in the prompt, add, the commit
    [version v], the tag [v], then, once the operator confirmed, the pushes
    on the branch of the status of the remotes the operator selected, in
    the order of the selection. A run makes an initial segment of them, so
    none is made unless all the earlier ones were, and the handler adds at
    most one stash at the end. *)
Theorem create_mutations_in_order this E :
  dry_run this = false ->
  (filter mutating (trace (create_try this E)) = []
   \/ exists content note v,
        prelude_answers this E content note v
        /\ (is_prefix (filter mutating (trace (create_try this E)))
                      (prelude_calls this content note v)
            \/ exists branch sel n,
                 push_answers E branch sel
                 /\ filter mutating (trace (create_try this E))
                    = prelude_calls this content note v
                      ++ pushed branch (firstn n sel)))
  /\ (filter mutating (trace (create this E))
      = filter mutating (trace (create_try this E))
      \/ filter mutating (trace (create this E))
         = filter mutating (trace (create_try this E)) ++ [GitStash]).
Proof.
  intros Hd. split.
  - destruct (create_try_segments this E Hd)
      as [[pre [Heq [content [note [v [Hans Hpre]]]]]]
         | [Hnil | [content [note [v [Hans Hp]]]]]].
    + right. exists content, note, v. split; [exact Hans|].
      rewrite Heq, trace_prepend, filter_mutating_app, Hpre.
      destruct (pushToRemote_mutations this E Hd)
        as [Hn | [branch [sel [n [Hpush Hn]]]]]; rewrite Hn.
      * left. exists []. reflexivity.
      * right. exists branch, sel, n. now split.
    + now left.
    + right. exists content, note, v. split; [exact Hans|]. now left.
  - unfold create. rewrite trace_try_catch, filter_mutating_app.
    destruct (result (create_try this E)) as [a | e | c].
    + left. apply app_nil_r.
    + right. now rewrite (create_catch_live _ _ _ Hd).
    + left. apply app_nil_r.
Qed.

Lemma create_mutations_in_order_witness :
  (filter mutating (trace (create_try live sample_env)) = []
   \/ exists content note v,
        prelude_answers live sample_env content note v
        /\ (is_prefix (filter mutating (trace (create_try live sample_env)))
                      (prelude_calls live content note v)
            \/ exists branch sel n,
                 push_answers sample_env branch sel
                 /\ filter mutating (trace (create_try live sample_env))
                    = prelude_calls live content note v
                      ++ pushed branch (firstn n sel)))
  /\ (filter mutating (trace (create live sample_env))
      = filter mutating (trace (create_try live sample_env))
      \/ filter mutating (trace (create live sample_env))
         = filter mutating (trace (create_try live sample_env))
           ++ [GitStash]).
Proof.
  apply (create_mutations_in_order live sample_env). reflexivity.
Defined.

(** ** The date range of the release note, for any commit dates *)

(** X15: once the tags and the log are read, [getFormattedVersionMessage]
    returns the title, a line break and one line per commit, where the
    range of the title starts at the earliest of the clock of the run and
    the commit dates that read as a valid instant, and ends at the latest
    of the epoch and those dates; a commit whose date does not read as one
    is left out of the range, and with no valid commit date the range goes
    from the clock to the epoch. *)
Theorem release_note_range E (newVersion latest : jsval)
    (all : list Git.commit) :
  tags_latest E = Resolved latest ->
  log_all E (if truthy latest then latest else None) = Resolved all ->
  let ts := commit_times (Date_parse E) all in
  exists lo hi,
    getFormattedVersionMessage E newVersion
    = ([GitTags; GitLog (if truthy latest then latest else None)],
       Returned
         ((js "- " ++ toStr newVersion ++ js " [ "
           ++ substring (toISOString E lo) 0 10
           ++ [32%N; EN_DASH; 32%N]
           ++ substring (toISOString E hi) 0 10 ++ js " ]")
          ++ [LF]
          ++ join [LF] (map (fun c => js "    -" ++ Git.message c) all)))
    /\ (lo = Date_now E \/ In lo ts) /\ lo <= Date_now E
    /\ Forall (fun t => lo <= t) ts
    /\ (hi = 0 \/ In hi ts) /\ 0 <= hi
    /\ Forall (fun t => t <= hi) ts.
Proof.
  intros Htags Hlog ts.
  destruct (fold_visit (Date_parse E) all {| from := Date_now E; to := 0 |})
    as [Hf Ht].
  cbn [from to] in Hf, Ht. fold ts in Hf, Ht.
  destruct (fold_min_spec ts (Date_now E)) as [Hmin Hlow].
  destruct (fold_max_spec ts 0) as [Hmax Hhigh].
  pose proof (fold_min_le ts (Date_now E)) as Hle.
  pose proof (fold_max_ge ts 0) as Hge.
  rewrite <- Hf in Hmin, Hlow, Hle. rewrite <- Ht in Hmax, Hhigh, Hge.
  set (d := fold_left (visit (Date_parse E)) all
              {| from := Date_now E; to := 0 |}) in *.
  exists (from d), (to d).
  split; [|repeat split; assumption].
  unfold getFormattedVersionMessage. rewrite Htags, bind_call_Resolved.
  destruct (truthy latest); rewrite Hlog, bind_call_Resolved;
    unfold formatVersionMessage; fold d; now rewrite map_map.
Qed.

Lemma release_note_range_witness :
  exists lo hi,
    getFormattedVersionMessage future_commit_env (Some (js "1.2.4"))
    = ([GitTags; GitLog (Some (js "1.2.3"))],
       Returned
         ((js "- " ++ js "1.2.4" ++ js " [ "
           ++ substring (sample_toISOString lo) 0 10
           ++ [32%N; EN_DASH; 32%N]
           ++ substring (sample_toISOString hi) 0 10 ++ js " ]")
          ++ [LF]
          ++ join [LF]
               (map (fun c => js "    -" ++ Git.message c) future_commits)))
    /\ (lo = 1704240000000 \/ In lo [1717200000000])
    /\ lo <= 1704240000000
    /\ Forall (fun t => lo <= t) [1717200000000]
    /\ (hi = 0 \/ In hi [1717200000000]) /\ 0 <= hi
    /\ Forall (fun t => t <= hi) [1717200000000].
Proof.
  apply (release_note_range future_commit_env (Some (js "1.2.4"))
           (Some (js "1.2.3")) future_commits); reflexivity.
Defined.

(** ** The order of the proposed versions *)

Lemma gt_same_main (a b : SemVer) :
  major a = major b -> minor a = minor b -> patch a = patch b ->
  gt a b = (comparePre a b =? 1).
Proof.
  intros H1 H2 H3. unfold gt, compare.
  now rewrite (compareMain_same _ _ H1 H2 H3).
Qed.

(** X16: for a valid release version (no prerelease identifiers), with
    the [semver] package modelled as above, the five choices of
    [proposeNextVersions] are listed in increasing precedence: the version
    is below the alpha candidate, which is below the beta candidate, then
    patch, minor and major. *)
Theorem proposed_versions_ascending (V : jsstring) (v : SemVer) :
  parse V = Some v ->
  prerelease v = [] ->
  let a := SemVer_inc v Rprerelease (Some alpha) in
  let b := SemVer_inc v Rprerelease (Some beta) in
  let p := SemVer_inc v Rpatch None in
  let mi := SemVer_inc v Rminor None in
  let ma := SemVer_inc v Rmajor None in
  Object_values (proposeNextVersions V)
  = map (fun x => Some (format x)) [a; b; p; mi; ma]
  /\ gt a v = true /\ gt b a = true /\ gt p b = true
  /\ gt mi p = true /\ gt ma mi = true.
Proof.
  intros Hparse Hp a b p mi ma.
  split; [|split; [|split; [|split; [|split]]]].
  - unfold proposeNextVersions, inc. rewrite Hparse. reflexivity.
  - now apply gt_prerelease_of_release.
  - rewrite gt_same_main;
      subst a b; unfold SemVer_inc; rewrite Hp; reflexivity.
  - apply release_exceeds_prerelease;
      subst p b; unfold SemVer_inc; rewrite Hp; try reflexivity.
    discriminate.
  - apply gt_main, compareMain_minor;
      subst mi p; unfold SemVer_inc; rewrite Hp; cbn [major minor];
      [reflexivity | now rewrite orb_true_r].
  - apply gt_main, compareMain_major.
    subst ma mi. unfold SemVer_inc. rewrite Hp. cbn [major minor].
    now rewrite !orb_true_r.
Qed.

Lemma proposed_versions_ascending_witness :
  Object_values (proposeNextVersions (js "1.2.3"))
  = map (fun x => Some (format x))
      [mkSemVer 1 2 4 [IdStr alpha; IdNum 0] [];
       mkSemVer 1 2 4 [IdStr beta; IdNum 0] [];
       mkSemVer 1 2 4 [] []; mkSemVer 1 3 0 [] []; mkSemVer 2 0 0 [] []].
Proof.
  destruct (proposed_versions_ascending (js "1.2.3") (mkSemVer 1 2 3 [] []))
    as [H _]; [reflexivity | reflexivity |].
  exact H.
Defined.
